(** * RealtimeAPI: the client of src/lib/api.js and its near copy

    A shallow embedding of the [RealtimeAPI] class (constructor, [isConnected],
    [log], [connect], [disconnect], [receive], [send]) together with the
    WebSocket it drives, followed by the properties of the connection
    life cycle and of the event envelope.

    JavaScript values are finite trees, objects are finite maps from
    property names to values, the instance is a record, and every side
    effect a method has on the outside world (a dispatch through the
    inherited event handler, a console line, a call on the socket, the
    settlement of a promise) is appended to an explicit list of effects. *)

From stdpp Require Import base strings list gmap pretty.

Local Open Scope string_scope.
Set Warnings "-register-all".

(** ** JavaScript values *)

(** Numbers are kept to the integers and NaN: the code only ever tests a
    number for truthiness. Functions are opaque. BigInts, symbols and
    objects that contain themselves are left out, so that [JSON.stringify]
    always gives a text. *)
Inductive value : Type :=
| VUndefined
| VNull
| VBool (b : bool)
| VNum (n : Z)
| VNaN
| VStr (s : string)
| VFun (f : nat)
| VArr (l : list value)
| VObj (o : gmap string value).

(** [typeof v] *)
Definition typeof (v : value) : string :=
  match v with
  | VUndefined => "undefined"
  | VNull => "object"
  | VBool _ => "boolean"
  | VNum _ | VNaN => "number"
  | VStr _ => "string"
  | VFun _ => "function"
  | VArr _ | VObj _ => "object"
  end.

(** [!!v] *)
Definition truthy (v : value) : bool :=
  match v with
  | VUndefined | VNull | VNaN => false
  | VBool b => b
  | VNum n => negb (n =? 0)%Z
  | VStr s => negb (String.eqb s "")
  | VFun _ | VArr _ | VObj _ => true
  end.

(** [a || b] *)
Definition js_or (a b : value) : value := if truthy a then a else b.

(** The own enumerable properties that an object spread [...v] copies:
    the properties of an object, the indices of an array, the indexed
    characters of a string, nothing for the other primitives. *)
Definition indexed {A} (f : A → value) (l : list A) : gmap string value :=
  list_to_map (imap (λ i x, (pretty i, f x)) l).

Definition own_props (v : value) : gmap string value :=
  match v with
  | VObj o => o
  | VArr l => indexed id l
  | VStr s => indexed (λ c, VStr (String c EmptyString)) (String.list_ascii_of_string s)
  | _ => ∅
  end.

(** [v[k]] for an own property; reading a property of [null] or [undefined]
    throws, and a missing property reads as [undefined]. Inherited
    properties (an array's [length], say) are not modelled: the code reads
    [type] only. *)
Definition get_prop (v : value) (k : string) : option value :=
  match v with
  | VUndefined | VNull => None
  | _ => Some (default VUndefined (own_props v !! k))
  end.

(** ** Exceptions *)

Inductive error : Type :=
| JsError (message : string)   (* new Error(message) *)
| TypeError                    (* a property read on null *)
| SyntaxError                  (* JSON.parse on malformed text *)
| SocketError.                 (* whatever the socket's send throws *)

Inductive result (A : Type) : Type :=
| Returns (a : A)
| Throws (e : error).
Arguments Returns {A} a.
Arguments Throws {A} e.

Definition AlreadyConnected : error := JsError "Already connected".
Definition NotConnected : error := JsError "RealtimeAPI is not connected".
Definition InvalidPayload : error := JsError "data must be an object".

(** ** The instance and its sockets *)

(** A socket is known by its identity: the position at which
    [new WebSocket] created it. *)
Abbreviation handle := nat.

(** The fields the constructor sets. *)
Record client : Type := Client {
  resourceName : string;
  deploymentName : string;
  url : string;
  debug : bool;
  ws : option handle
}.

Inductive ready_state : Type := CONNECTING | OPEN | CLOSING | CLOSED.

(** The closures [connect] registers on a socket. Each one captures the
    socket [ws] it is registered on, the [fullUrl] of the call and the
    [resolve] and [reject] of the promise of the call. *)
Inductive listener : Type :=
| MessageListener          (* (event) => { JSON.parse ...; this.receive(...) } *)
| ConnectionErrorHandler   (* connectionErrorHandler *)
| OpenListener             (* the 'open' callback *)
| ErrorListener            (* the 'error' callback added on open *)
| CloseListener.           (* the 'close' callback added on open *)

Global Instance listener_eq_dec : EqDecision listener.
Proof. solve_decision. Defined.
Global Instance ready_state_eq_dec : EqDecision ready_state.
Proof. solve_decision. Defined.

Record socket : Type := Socket {
  sock_url : string;
  readyState : ready_state;
  on_message : list listener;
  on_error : list listener;
  on_open : list listener;
  on_close : list listener
}.

(** The world a method runs in: the instance, every socket created so
    far, the [fullUrl] of each [connect] call suspended at
    [await import(...)], and whether [globalThis.document] is set. *)
Record world : Type := World {
  api : client;
  sockets : list socket;
  importing : list string;
  document : bool
}.

(** What a method does to the outside. [Resolve h] and [Reject h e] are the
    calls of [resolve] and [reject] of the promise of the [connect] call
    that created socket [h]. *)
Inductive effect : Type :=
| Dispatch (name : string) (payload : value)
| ConsoleLog (args : list value)
| WsNew (h : handle) (target : string)
| WsSend (h : handle) (text : string)
| WsClose (h : handle)
| Resolve (h : handle)
| Reject (h : handle) (e : error).

(** ** Computations: state, effects and exceptions *)

Definition M (A : Type) : Type := world → result A * world * list effect.

Definition M_ret {A} (a : A) : M A := λ w, (Returns a, w, []).
Definition throw {A} (e : error) : M A := λ w, (Throws e, w, []).
Definition M_bind {A B} (k : A → M B) (m : M A) : M B := λ w,
  match m w with
  | (Returns a, w1, out1) =>
      match k a w1 with (r, w2, out2) => (r, w2, (out1 ++ out2)%list) end
  | (Throws e, w1, out1) => (Throws e, w1, out1)
  end.
Global Instance M_mret : MRet M := @M_ret.
Global Instance M_mbind : MBind M := @M_bind.

Definition get : M world := λ w, (Returns w, w, []).
Definition modify (f : world → world) : M unit := λ w, (Returns tt, f w, []).
Definition emit (e : effect) : M unit := λ w, (Returns tt, w, [e]).

(** [this.ws = o] *)
Definition set_owner (o : option handle) (w : world) : world :=
  let c := api w in
  World (Client (resourceName c) (deploymentName c) (url c) (debug c) o)
        (sockets w) (importing w) (document w).

Definition set_sockets (l : list socket) (w : world) : world :=
  World (api w) l (importing w) (document w).

Definition set_importing (l : list string) (w : world) : world :=
  World (api w) (sockets w) l (document w).

(** A change of the socket [h]; no socket, no change. *)
Definition map_socket (h : handle) (f : socket → socket) (w : world) : world :=
  set_sockets (alter f h (sockets w)) w.

(** ** The class *)

(** The constants on which src/lib/api.js and its copy differ: the two
    fields the constructor sets and the key inside [fullUrl]. *)
Class Settings : Type := {
  resource : string;
  deployment : string;
  api_key : string
}.

(** The host: the clock, JSON and the conversion to a string. *)
Class Host : Type := {
  date_iso : string;                        (* new Date().toISOString() *)
  JSON_stringify : value → string;          (* JSON.stringify(v) *)
  JSON_stringify_indent : value → string;   (* JSON.stringify(v, null, 2) *)
  JSON_parse : string → option value;       (* None: it throws *)
  to_string : value → string                (* String(v), v not a string *)
}.

(** Modelled from the spec: [RealtimeUtils.generateId(prefix)], of
    utils.js, gives the prefix followed by random characters; they are the
    argument [rnd]. *)
Definition generateId (prefix rnd : string) : string := prefix +:+ rnd.

(** Modelled from the spec: [dispatch(eventName, event)], inherited from
    RealtimeEventHandler of event_handler.js, hands the event to the
    listeners and gives a success indicator. The listeners are observers:
    the call is recorded as an effect. *)
Definition dispatch (eventName : string) (event : value) : M bool :=
  emit (Dispatch eventName event);; mret true.

(** The text between double quotes, as the messages about [fullUrl] have it. *)
Definition quoted (s : string) : string :=
  String (Ascii.ascii_of_nat 34) (s +:+ String (Ascii.ascii_of_nat 34) EmptyString).

Fixpoint remove_first (l : listener) (ls : list listener) : list listener :=
  match ls with
  | [] => []
  | x :: ls' => if decide (x = l) then ls' else x :: remove_first l ls'
  end.

(** [removeListener] takes out one registration, the most recent. *)
Definition removeListener (l : listener) (ls : list listener) : list listener :=
  reverse (remove_first l (reverse ls)).

Definition with_readyState (r : ready_state) (s : socket) : socket :=
  Socket (sock_url s) r (on_message s) (on_error s) (on_open s) (on_close s).

Definition with_on_error (f : list listener → list listener) (s : socket) : socket :=
  Socket (sock_url s) (readyState s) (on_message s) (f (on_error s)) (on_open s) (on_close s).

Definition with_on_close (f : list listener → list listener) (s : socket) : socket :=
  Socket (sock_url s) (readyState s) (on_message s) (on_error s) (on_open s) (f (on_close s)).

(** [ws.close()]: a socket that is connecting or open starts closing, one
    that is closing or closed stays as it is. *)
Definition closing (s : socket) : socket :=
  match readyState s with
  | CONNECTING | OPEN => with_readyState CLOSING s
  | CLOSING | CLOSED => s
  end.

Definition ws_close (h : handle) : M unit :=
  emit (WsClose h);; modify (map_socket h closing).

Section RealtimeAPI.

Context {hst : Host} {cfg : Settings}.

(** [`${v}`] *)
Definition template (v : value) : string :=
  match v with VStr s => s | _ => to_string v end.

(** [constructor({ debug } = {})] *)
Definition constructor (dbg : value) : client :=
  {| resourceName := resource;
     deploymentName := deployment;
     url := "wss://" +:+ resource +:+ ".openai.azure.com/openai/realtime";
     debug := truthy dbg;
     ws := None |}.

Definition isConnected : M bool :=
  w ← get; mret (match ws (api w) with Some _ => true | None => false end).

Definition is_null (v : value) : bool :=
  match v with VNull => true | _ => false end.

Definition log (args : list value) : M bool :=
  w ← get;
  let logs :=
    (λ arg, if String.eqb (typeof arg) "object" && negb (is_null arg)
            then VStr (JSON_stringify_indent arg) else arg)
      <$> (VStr ("[Websocket/" +:+ date_iso +:+ "]") :: args) in
  (if debug (api w) then emit (ConsoleLog logs) else mret tt);;
  mret true.

(** [disconnect(ws)]: the argument is absent ([None]) or a socket. The
    result is [true], or [undefined] when the body is skipped. *)
Definition disconnect (arg : option handle) : M value :=
  w ← get;
  if bool_decide (arg = None) || bool_decide (ws (api w) = arg) then
    (match ws (api w) with Some h => ws_close h | None => mret tt end);;
    modify (set_owner None);;
    mret (VBool true)
  else mret VUndefined.

Definition receive (eventName event : value) : M bool :=
  log [VStr "received:"; eventName; event];;
  dispatch ("server." +:+ template eventName) event;;
  dispatch "server.*" event;;
  mret true.

(** [{ event_id: ..., type: eventName, ...data }]: the spread comes
    last, so a property of [data] replaces the one before it. *)
Definition envelope (id : string) (eventName data : value) : value :=
  VObj (own_props data ∪ <["type" := eventName]> {["event_id" := VStr id]}).

(** [this.ws.send(text)]; [fails] tells whether the socket throws. *)
Definition ws_send (fails : bool) (text : string) : M unit :=
  w ← get;
  match ws (api w) with
  | None => throw TypeError
  | Some h => if fails then throw SocketError else emit (WsSend h text)
  end.

(** [send(eventName, data)], with the random characters the id
    generator draws and whether the socket's [send] throws. *)
Definition send (eventName data : value) (rnd : string) (fails : bool) : M bool :=
  connected ← isConnected;
  if negb connected then throw NotConnected else
  let data := js_or data (VObj ∅) in
  if negb (String.eqb (typeof data) "object") then throw InvalidPayload else
  let event := envelope (generateId "evt_" rnd) eventName data in
  dispatch ("client." +:+ template eventName) event;;
  dispatch "client.*" event;;
  log [VStr "sent:"; eventName; event];;
  ws_send fails (JSON_stringify event);;
  mret true.

(** The rest of [connect] once the guard is passed and, under Node.js,
    the module is loaded: [new WebSocket(fullUrl)], the 'message'
    listener, and inside the promise the 'error' and 'open' listeners. *)
Definition open_socket (fullUrl : string) : M handle :=
  w ← get;
  let h := length (sockets w) in
  emit (WsNew h fullUrl);;
  modify (set_sockets (sockets w ++ [Socket fullUrl CONNECTING
                                       [MessageListener] [ConnectionErrorHandler]
                                       [OpenListener] []])%list);;
  mret h.

(** [connect()]. A throw is the rejection of the promise the async
    function returns. Otherwise the promise is pending: [Some h] when
    socket [h] was created in the call (a browser), [None] when the call
    is suspended at [await import(...)] (Node.js). *)
Definition connect : M (option handle) :=
  connected ← isConnected;
  if (connected : bool) then throw AlreadyConnected else
  w ← get;
  let fullUrl := url (api w) +:+ "?api-version=2024-10-01-preview&deployment="
                 +:+ deploymentName (api w) +:+ "&api-key=" +:+ api_key in
  if document w then h ← open_socket fullUrl; mret (Some h)
  else modify (set_importing (importing w ++ [fullUrl])%list);; mret None.

(** The body of each closure, for the socket [h] and the [fullUrl] it
    captured; [arg] is [event.data] (or [data.toString()]) for a message
    and [error.message] for an error. *)
Definition call_listener (h : handle) (fullUrl : string) (l : listener)
    (arg : value) : M unit :=
  match l with
  | MessageListener =>
      match JSON_parse (template arg) with
      | None => throw SyntaxError
      | Some message =>
          match get_prop message "type" with
          | None => throw TypeError
          | Some type => receive type message;; mret tt
          end
      end
  | ConnectionErrorHandler =>
      disconnect (Some h);;
      emit (Reject h (JsError ("Could not connect to " +:+ quoted fullUrl +:+ ": "
                               +:+ template arg)))
  | OpenListener =>
      log [VStr ("Connected to " +:+ quoted fullUrl)];;
      modify (map_socket h (with_on_error (removeListener ConnectionErrorHandler)));;
      modify (map_socket h (with_on_error (λ ls, ls ++ [ErrorListener])%list));;
      modify (map_socket h (with_on_close (λ ls, ls ++ [CloseListener])%list));;
      modify (set_owner (Some h));;
      emit (Resolve h)
  | ErrorListener =>
      disconnect (Some h);;
      log [VStr ("Error, disconnected from " +:+ quoted fullUrl +:+ ": "
                 +:+ template arg)];;
      dispatch "close" (VObj {["error" := VBool true]});;
      mret tt
  | CloseListener =>
      disconnect (Some h);;
      log [VStr ("Disconnected from " +:+ quoted fullUrl)];;
      dispatch "close" (VObj {["error" := VBool false]});;
      mret tt
  end.

(** The socket calls the listeners registered when the event fires, in
    the order of their registration. *)
Fixpoint call_listeners (h : handle) (fullUrl : string) (ls : list listener)
    (arg : value) : M unit :=
  match ls with
  | [] => mret tt
  | l :: ls' => call_listener h fullUrl l arg;; call_listeners h fullUrl ls' arg
  end.

Definition fire (h : handle) (pick : socket → list listener) (arg : value) : M unit :=
  w ← get;
  match sockets w !! h with
  | None => mret tt
  | Some s => call_listeners h (sock_url s) (pick s) arg
  end.

(** ** The client and its sockets as a transition system *)

(** What can happen: the caller calls a method, or the host resumes a
    suspended [connect], or a socket fires one of its four events. *)
Inductive input : Type :=
| CallIsConnected
| CallLog (args : list value)
| CallConnect
| CallDisconnect (arg : option handle)
| CallReceive (eventName event : value)
| CallSend (eventName data : value) (rnd : string) (fails : bool)
| ImportDone
| SockOpen (h : handle)
| SockMessage (h : handle) (data : value)
| SockError (h : handle) (message : value)
| SockClose (h : handle).

(** What a call gives back: a value, or the pending promise of
    [connect]; an event gives nothing. *)
Inductive reply : Type :=
| Value (v : value)
| Promise (h : option handle)
| Nothing.

Definition ready (w : world) (h : handle) : option ready_state :=
  readyState <$> sockets w !! h.

(** The contract of the socket: 'open' fires once, on a connecting
    socket; 'message' fires on an open socket; 'close' fires once and
    ends the socket; 'error' fires on a socket that is not closed yet. A
    suspended call resumes when there is one. *)
Definition enabled (i : input) (w : world) : bool :=
  match i with
  | ImportDone => bool_decide (importing w ≠ [])
  | SockOpen h => bool_decide (ready w h = Some CONNECTING)
  | SockMessage h _ => bool_decide (ready w h = Some OPEN)
  | SockError h _ =>
      bool_decide (is_Some (ready w h)) && negb (bool_decide (ready w h = Some CLOSED))
  | SockClose h =>
      bool_decide (is_Some (ready w h)) && negb (bool_decide (ready w h = Some CLOSED))
  | _ => true
  end.

Definition answer {A} (f : A → reply) (m : M A) : M reply := a ← m; mret (f a).

Definition run (i : input) : M reply :=
  match i with
  | CallIsConnected => answer (λ b, Value (VBool b)) isConnected
  | CallLog args => answer (λ b, Value (VBool b)) (log args)
  | CallConnect => answer Promise connect
  | CallDisconnect arg => answer Value (disconnect arg)
  | CallReceive eventName event => answer (λ b, Value (VBool b)) (receive eventName event)
  | CallSend eventName data rnd fails =>
      answer (λ b, Value (VBool b)) (send eventName data rnd fails)
  | ImportDone =>
      w ← get;
      match importing w with
      | [] => mret Nothing
      | fullUrl :: rest =>
          modify (set_importing rest);; open_socket fullUrl;; mret Nothing
      end
  | SockOpen h =>
      modify (map_socket h (with_readyState OPEN));;
      fire h on_open VUndefined;; mret Nothing
  | SockMessage h data => fire h on_message data;; mret Nothing
  | SockError h message => fire h on_error message;; mret Nothing
  | SockClose h =>
      modify (map_socket h (with_readyState CLOSED));;
      fire h on_close VUndefined;; mret Nothing
  end.

(** One transition: the world after it and what was emitted. An
    exception leaves the world as it was when it was thrown. *)
Definition step (w : world) (i : input) : option (world * list effect) :=
  if enabled i w then
    match run i w with (_, w', out) => Some (w', out) end
  else None.

Fixpoint steps (w : world) (tr : list input) : option (world * list effect) :=
  match tr with
  | [] => Some (w, [])
  | i :: tr' =>
      match step w i with
      | None => None
      | Some (w1, out1) =>
          match steps w1 tr' with
          | None => None
          | Some (w2, out2) => Some (w2, (out1 ++ out2)%list)
          end
      end
  end.

(** A fresh instance in a fresh host. *)
Definition initial (dbg : value) (browser : bool) : world :=
  World (constructor dbg) [] [] browser.

Definition reachable (w : world) : Prop :=
  ∃ dbg browser tr out, steps (initial dbg browser) tr = Some (w, out).

End RealtimeAPI.

(** ** The worlds the methods lead to *)

(** What [disconnect] does when it runs its body: the socket held is told
    to close and is let go of. *)
Definition release (w : world) : world :=
  set_owner None
    (match ws (api w) with Some h => map_socket h closing w | None => w end).

Definition closes (w : world) : list effect :=
  match ws (api w) with Some h => [WsClose h] | None => [] end.

(** What the 'open' callback does to the listeners of its socket. *)
Definition rewire (s : socket) : socket :=
  with_on_close (λ ls, ls ++ [CloseListener])%list
    (with_on_error (λ ls, ls ++ [ErrorListener])%list
       (with_on_error (removeListener ConnectionErrorHandler) s)).

(** The line [log] writes, when [debug] is set. *)
Definition log_out {hst : Host} (w : world) (args : list value) : list effect :=
  if debug (api w) then
    [ConsoleLog ((λ arg, if String.eqb (typeof arg) "object" && negb (is_null arg)
                         then VStr (JSON_stringify_indent arg) else arg)
                   <$> (VStr ("[Websocket/" +:+ date_iso +:+ "]") :: args))]
  else [].

(** ** The shape of the reachable worlds *)

(** The listeners of a socket before and after its 'open' event. *)
Definition fresh_wiring (s : socket) : Prop :=
  on_message s = [MessageListener] ∧ on_error s = [ConnectionErrorHandler] ∧
  on_open s = [OpenListener] ∧ on_close s = [].

Definition opened_wiring (s : socket) : Prop :=
  on_message s = [MessageListener] ∧ on_error s = [ErrorListener] ∧
  on_open s = [OpenListener] ∧ on_close s = [CloseListener].

Definition wired (s : socket) : Prop :=
  (fresh_wiring s ∧ (readyState s = CONNECTING ∨ readyState s = CLOSED))
  ∨ (opened_wiring s ∧ readyState s ≠ CONNECTING).

(** Every socket is wired by [connect], and the socket the instance
    holds is open. *)
Definition inv (w : world) : Prop :=
  (∀ h s, sockets w !! h = Some s → wired s) ∧
  (∀ h, ws (api w) = Some h → ready w h = Some OPEN).

(** What [disconnect(ws)] called from a callback of socket [h] leaves:
    the identity check lets it act only when [h] is the socket held. *)
Definition drop (h : handle) (w : world) : world :=
  if bool_decide (ws (api w) = Some h) then release w else w.

Definition drop_out (h : handle) (w : world) : list effect :=
  if bool_decide (ws (api w) = Some h) then [WsClose h] else [].

(** [fullUrl], as [connect] builds it. *)
Definition fullUrl_of {cfg : Settings} (w : world) : string :=
  url (api w) +:+ "?api-version=2024-10-01-preview&deployment="
  +:+ deploymentName (api w) +:+ "&api-key=" +:+ api_key.

(** The socket as [connect] leaves it. *)
Definition fresh_socket (target : string) : socket :=
  Socket target CONNECTING [MessageListener] [ConnectionErrorHandler] [OpenListener] [].

(** What the 'error' and 'close' callbacks added on open emit. *)
Definition teardown_out {hst : Host} (h : handle) (w : world) (line : string)
    (flag : bool) : list effect :=
  (drop_out h w ++ log_out w [VStr line] ++
   [Dispatch "close" (VObj {["error" := VBool flag]})])%list.

(** ** Traces *)

(** The 'open' events: a [connect] succeeds when one fires. *)
Definition is_open (i : input) : bool :=
  match i with SockOpen _ => true | _ => false end.

(** The inputs that can end a connection: [disconnect] and the 'error'
    and 'close' events. *)
Definition may_release (i : input) : bool :=
  match i with
  | CallDisconnect _ | SockError _ _ | SockClose _ => true
  | _ => false
  end.

(** The dispatches among the effects, in order. *)
Definition dispatched (out : list effect) : list (string * value) :=
  omap (λ e, match e with Dispatch n p => Some (n, p) | _ => None end) out.

(** The settlements of [connect] promises among the effects. *)
Definition is_settlement (e : effect) : bool :=
  match e with Resolve _ | Reject _ _ => true | _ => false end.

Definition settled (out : list effect) : list effect :=
  filter (λ e, is_settlement e) out.

(** ** The two files *)

(** The constants of src/lib/api.js and of its copy. The key is the text
    after [api-key=] in [fullUrl]; it is left to the caller. *)
Definition lib_api (key : string) : Settings :=
  {| resource := "whywa-m1vsn982-eastus2";
     deployment := "gpt-4o-realtime-preview";
     api_key := key |}.

Definition part_000 (key : string) : Settings :=
  {| resource := "agawal-resource";
     deployment := "gpt-4o-mini-realtime-preview";
     api_key := key |}.

(** Two worlds that differ in the connection target only: the three
    fields of the instance that hold it, and the [fullUrl] a socket or a
    suspended call captured. *)
Definition same_client (c1 c2 : client) : Prop :=
  debug c1 = debug c2 ∧ ws c1 = ws c2.

Definition same_socket (s1 s2 : socket) : Prop :=
  readyState s1 = readyState s2 ∧ on_message s1 = on_message s2 ∧
  on_error s1 = on_error s2 ∧ on_open s1 = on_open s2 ∧ on_close s1 = on_close s2.

Definition sim (w1 w2 : world) : Prop :=
  same_client (api w1) (api w2) ∧ Forall2 same_socket (sockets w1) (sockets w2) ∧
  length (importing w1) = length (importing w2) ∧ document w1 = document w2.

(** Two effects that differ in the connection target only: the target of
    a new socket, and the quoted [fullUrl] inside a console line or inside
    the message of a rejection. *)
Inductive same_effect : effect → effect → Prop :=
| same_effect_refl e : same_effect e e
| same_effect_new h u1 u2 : same_effect (WsNew h u1) (WsNew h u2)
| same_effect_log stamp before after u1 u2 :
    same_effect (ConsoleLog [stamp; VStr (before +:+ quoted u1 +:+ after)])
                (ConsoleLog [stamp; VStr (before +:+ quoted u2 +:+ after)])
| same_effect_reject h before after u1 u2 :
    same_effect (Reject h (JsError (before +:+ quoted u1 +:+ after)))
                (Reject h (JsError (before +:+ quoted u2 +:+ after))).

(** ** A host and worlds to compute with *)

Definition sample_host : Host :=
  {| date_iso := "2024-10-01T00:00:00.000Z";
     JSON_stringify := λ _, "{...}";
     JSON_stringify_indent := λ _, "{ ... }";
     JSON_parse := λ text,
       if String.eqb text "pong" then Some (VObj {["type" := VStr "pong"]}) else None;
     to_string := λ _, "[object]" |}.

Definition sample_settings : Settings := lib_api "key".

Definition sample_url : string :=
  "wss://whywa-m1vsn982-eastus2.openai.azure.com/openai/realtime?api-version=2024-10-01-preview&deployment=gpt-4o-realtime-preview&api-key=key".

Definition sample_client (holds : option handle) : client :=
  Client "whywa-m1vsn982-eastus2" "gpt-4o-realtime-preview"
    "wss://whywa-m1vsn982-eastus2.openai.azure.com/openai/realtime" false holds.

Definition opened_socket (r : ready_state) : socket :=
  Socket sample_url r [MessageListener] [ErrorListener] [OpenListener] [CloseListener].

(** A browser with a fresh instance; after [connect()]; after the 'open'
    event; after the 'error' event on the open socket. *)
Definition fresh_world : world := World (sample_client None) [] [] true.

Definition pending_world : world :=
  World (sample_client None) [fresh_socket sample_url] [] true.

Definition connected_world : world :=
  World (sample_client (Some 0)) [opened_socket OPEN] [] true.

Definition failed_world : world :=
  World (sample_client None) [opened_socket CLOSING] [] true.

(** Two [connect()] calls before any 'open' event, then the 'open' event
    of the second socket, then that of the first. *)
Definition raced_world : world :=
  World (sample_client (Some 1)) [fresh_socket sample_url; opened_socket OPEN] [] true.

Definition stolen_world : world :=
  World (sample_client (Some 0)) [opened_socket OPEN; opened_socket OPEN] [] true.

(** ** Sentences of the specification, as they are written *)

Section sentences.

Context {hst : Host} {cfg : Settings}.

(** A second [connect()] with no [disconnect()] in between fails, at
    whatever point the second call comes. *)
Definition second_connect_always_fails : Prop :=
  ∀ w r1 w1 o1 tr w2 out2,
    reachable w →
    connect w = (Returns r1, w1, o1) →
    Forall (λ i, ∀ arg, i ≠ CallDisconnect arg) tr →
    steps w1 tr = Some (w2, out2) →
    connect w2 = (Throws AlreadyConnected, w2, []).

(** The envelope has the generated id, the event name as its type and
    every property of the caller. *)
Definition envelope_as_claimed (id : string) (eventName data ev : value) : Prop :=
  get_prop ev "event_id" = Some (VStr id) ∧
  get_prop ev "type" = Some eventName ∧
  ∀ k v, own_props data !! k = Some v → get_prop ev k = Some v.

Definition send_builds_claimed_envelope : Prop :=
  ∀ w h eventName o rnd,
    ws (api w) = Some h →
    ∃ ev,
      (send eventName (VObj o) rnd false w).2 =
        ([Dispatch ("client." +:+ template eventName) ev; Dispatch "client.*" ev] ++
         log_out w [VStr "sent:"; eventName; ev] ++
         [WsSend h (JSON_stringify ev)])%list ∧
      envelope_as_claimed (generateId "evt_" rnd) eventName (VObj o) ev.

Definition is_mapping (v : value) : bool :=
  match v with VObj _ => true | _ => false end.

(** [send] fails with the payload error exactly when the data is
    neither a mapping nor left out. *)
Definition invalid_payload_iff_not_mapping : Prop :=
  ∀ w h eventName data rnd fails,
    ws (api w) = Some h →
    (send eventName data rnd fails w).1.1 = Throws InvalidPayload ↔
    is_mapping data = false ∧ data ≠ VUndefined.

(** The 'open', 'error' and 'close' events of socket [h]. *)
Definition lifecycle (h : handle) (i : input) : Prop :=
  i = SockOpen h ∨ (∃ message, i = SockError h message) ∨ i = SockClose h.

(** A life cycle callback of a socket older than the one held leaves
    the instance as it is. *)
Definition stale_callbacks_ignored : Prop :=
  ∀ w h h' i w' out,
    reachable w →
    ws (api w) = Some h' → h < h' →
    lifecycle h i →
    step w i = Some (w', out) →
    api w' = api w.

End sentences.

(** Two results are alike when both return, with related values, or both
    throw the same exception. *)
Definition same_result {A B} (R : A → B → Prop) (r1 : result A) (r2 : result B) : Prop :=
  match r1, r2 with
  | Returns a, Returns b => R a b
  | Throws e1, Throws e2 => e1 = e2
  | _, _ => False
  end.

(** Two computations that, from worlds that differ in the connection
    target only, end alike in such worlds, with such effects. *)
Definition simM {A B} (R : A → B → Prop) (m1 : M A) (m2 : M B) : Prop :=
  ∀ w1 w2, sim w1 w2 →
    same_result R (m1 w1).1.1 (m2 w2).1.1 ∧
    sim (m1 w1).1.2 (m2 w2).1.2 ∧
    Forall2 same_effect (m1 w1).2 (m2 w2).2.

(** ** More about the effects *)

(** The texts written to sockets, each with its socket. *)
Definition written (out : list effect) : list (handle * string) :=
  omap (λ e, match e with WsSend h text => Some (h, text) | _ => None end) out.

(** The sockets told to close. *)
Definition closed_by_client (out : list effect) : list handle :=
  omap (λ e, match e with WsClose h => Some h | _ => None end) out.

(** The console lines. *)
Definition console (out : list effect) : list (list value) :=
  omap (λ e, match e with ConsoleLog args => Some args | _ => None end) out.

(** The settlements of the promise of the [connect] call of socket [h]. *)
Definition settles (h : handle) (e : effect) : bool :=
  match e with
  | Resolve h' | Reject h' _ => bool_decide (h' = h)
  | _ => false
  end.

(** The inputs that only look: the calls of [isConnected], [log],
    [receive] and [send], and the 'message' events. *)
Definition observes (i : input) : bool :=
  match i with
  | CallIsConnected | CallLog _ | CallReceive _ _ | CallSend _ _ _ _
  | SockMessage _ _ => true
  | _ => false
  end.

(** Where an effect can come from: what has to hold of the world and of
    the input of the step that emits it. *)
Definition emitted_by (w : world) (i : input) (e : effect) : Prop :=
  match e with
  | ConsoleLog _ => debug (api w) = true
  | Dispatch _ _ =>
      match i with
      | CallReceive _ _ | CallSend _ _ _ _ | SockMessage _ _
      | SockError _ _ | SockClose _ => True
      | _ => False
      end
  | WsNew h _ => h = length (sockets w) ∧ (i = CallConnect ∨ i = ImportDone)
  | WsSend h _ => ws (api w) = Some h ∧ ∃ eventName data rnd, i = CallSend eventName data rnd false
  | WsClose h =>
      ws (api w) = Some h ∧
      match i with
      | CallDisconnect _ | SockError _ _ | SockClose _ => True
      | _ => False
      end
  | Resolve h => i = SockOpen h ∧ ready w h = Some CONNECTING
  | Reject h _ => (∃ message, i = SockError h message) ∧ ready w h = Some CONNECTING
  end.

(** The order in which a socket goes through its states. *)
Definition rank (r : ready_state) : nat :=
  match r with CONNECTING => 0 | OPEN => 1 | CLOSING => 2 | CLOSED => 3 end.

(** A socket later on: the same target, a state not before the earlier. *)
Definition advances (s s' : socket) : Prop :=
  sock_url s' = sock_url s ∧ (rank (readyState s) ≤ rank (readyState s'))%nat.

(** The ways a step changes the world: not at all, by a new socket, by a
    suspended call, by letting go of the socket held, by the 'open' event
    of a connecting socket, by the 'close' event of a socket. *)
Inductive changes {cfg : Settings} (w : world) : world → Prop :=
| changes_nothing : changes w w
| changes_new_socket target rest :
    (target = fullUrl_of w ∧ rest = importing w) ∨ importing w = target :: rest →
    changes w (set_sockets (sockets w ++ [fresh_socket target]) (set_importing rest w))
| changes_suspend :
    changes w (set_importing (importing w ++ [fullUrl_of w]) w)
| changes_release : changes w (release w)
| changes_open h s :
    sockets w !! h = Some s → readyState s = CONNECTING → fresh_wiring s →
    changes w (set_owner (Some h) (map_socket h (rewire ∘ with_readyState OPEN) w))
| changes_close h :
    changes w (drop h (map_socket h (with_readyState CLOSED) w)).

(** [fullUrl] for a fresh instance of the class. *)
Definition fullUrl {cfg : Settings} : string :=
  ("wss://" +:+ resource +:+ ".openai.azure.com/openai/realtime")
  +:+ "?api-version=2024-10-01-preview&deployment="
  +:+ deployment +:+ "&api-key=" +:+ api_key.

(** The instance keeps the fields the constructor set, and every socket
    and every suspended call has [fullUrl] as its target. *)
Definition targets_fullUrl {cfg : Settings} (w : world) : Prop :=
  url (api w) = "wss://" +:+ resource +:+ ".openai.azure.com/openai/realtime" ∧
  deploymentName (api w) = deployment ∧
  resourceName (api w) = resource ∧
  Forall (λ u, u = fullUrl) (importing w) ∧
  Forall (λ s, sock_url s = fullUrl) (sockets w).

(** A Node.js host with a fresh instance, and the same after [connect()]
    and after the module is loaded. *)
Definition node_world : world := World (sample_client None) [] [] false.

Definition closed_early_world : world :=
  World (sample_client None)
    [Socket sample_url CLOSED [MessageListener] [ConnectionErrorHandler] [OpenListener] []]
    [] true.

(** The instance let go of socket 0 and holds socket 1. *)
Definition reconnected_world : world :=
  World (sample_client (Some 1)) [opened_socket CLOSING; opened_socket OPEN] [] true.

(** The socket held has closed. *)
Definition closed_world : world :=
  World (sample_client None) [opened_socket CLOSED] [] true.

(** The socket let go of has closed, the one held is untouched. *)
Definition stale_closed_world : world :=
  World (sample_client (Some 1)) [opened_socket CLOSED; opened_socket OPEN] [] true.
(** * Properties *)

(** Runs the monad: unfolds its operations and the projections of a world. *)
Ltac mrun :=
  cbv beta iota zeta delta
    [mbind M_mbind M_bind mret M_mret M_ret get modify emit throw dispatch
     ws_close isConnected answer];
  cbn [api sockets importing document ws debug url resourceName
       deploymentName app fst snd].


Section properties.

Context {hst : Host} {cfg : Settings}.

(** ** What each method computes *)

Lemma log_spec w args : log args w = (Returns true, w, log_out w args).
Proof. unfold log, log_out. mrun. destruct (debug (api w)); reflexivity. Qed.

Lemma log_out_set_owner o w args : log_out (set_owner o w) args = log_out w args.
Proof. reflexivity. Qed.

Lemma log_out_map_socket h f w args : log_out (map_socket h f w) args = log_out w args.
Proof. reflexivity. Qed.

Lemma log_out_release w args : log_out (release w) args = log_out w args.
Proof. unfold release. destruct (ws (api w)); reflexivity. Qed.

Lemma log_out_drop h w args : log_out (drop h w) args = log_out w args.
Proof. unfold drop. case_bool_decide; [apply log_out_release | done]. Qed.

Lemma receive_spec w eventName event :
  receive eventName event w =
    (Returns true, w,
     (log_out w [VStr "received:"; eventName; event] ++
      [Dispatch ("server." +:+ template eventName) event;
       Dispatch "server.*" event])%list).
Proof. unfold receive. mrun. rewrite log_spec. reflexivity. Qed.

Lemma disconnect_spec w arg :
  disconnect arg w =
    if bool_decide (arg = None) || bool_decide (ws (api w) = arg)
    then (Returns (VBool true), release w, closes w)
    else (Returns VUndefined, w, []).
Proof.
  unfold disconnect, release, closes. mrun.
  destruct (_ || _); [|done]. destruct (ws (api w)); done.
Qed.

Lemma disconnect_from_callback w h :
  disconnect (Some h) w =
    (Returns (if bool_decide (ws (api w) = Some h) then VBool true else VUndefined),
     drop h w, drop_out h w).
Proof.
  rewrite disconnect_spec. unfold drop, drop_out, closes.
  rewrite (bool_decide_eq_false_2 (Some h = None)) by done. cbn [orb].
  case_bool_decide as E; [by rewrite E | done].
Qed.

Lemma send_not_connected_spec w eventName data rnd fails :
  ws (api w) = None →
  send eventName data rnd fails w = (Throws NotConnected, w, []).
Proof. intros H. unfold send. mrun. by rewrite H. Qed.

Lemma send_invalid_spec w h eventName data rnd fails :
  ws (api w) = Some h →
  typeof (js_or data (VObj ∅)) ≠ "object" →
  send eventName data rnd fails w = (Throws InvalidPayload, w, []).
Proof.
  intros H Ht. unfold send. mrun. rewrite H. cbn.
  destruct (String.eqb_spec (typeof (js_or data (VObj ∅))) "object"); done.
Qed.

Lemma send_spec w h eventName data rnd fails :
  ws (api w) = Some h →
  typeof (js_or data (VObj ∅)) = "object" →
  send eventName data rnd fails w =
    let event := envelope (generateId "evt_" rnd) eventName (js_or data (VObj ∅)) in
    (if fails then Throws SocketError else Returns true, w,
     ([Dispatch ("client." +:+ template eventName) event;
       Dispatch "client.*" event] ++
      log_out w [VStr "sent:"; eventName; event] ++
      (if fails then [] else [WsSend h (JSON_stringify event)]))%list).
Proof.
  intros H Ht. unfold send. mrun. rewrite H. cbn. rewrite Ht. cbn.
  rewrite log_spec. unfold ws_send. mrun. rewrite H.
  destruct fails; reflexivity.
Qed.

Lemma send_world w eventName data rnd fails :
  (send eventName data rnd fails w).1.2 = w.
Proof.
  destruct (ws (api w)) as [h|] eqn:E.
  - destruct (decide (typeof (js_or data (VObj ∅)) = "object")).
    + rewrite (send_spec _ h) by done. by destruct fails.
    + by rewrite (send_invalid_spec _ h).
  - by rewrite send_not_connected_spec.
Qed.

Lemma connect_connected_spec w h :
  ws (api w) = Some h → connect w = (Throws AlreadyConnected, w, []).
Proof. intros H. unfold connect. mrun. by rewrite H. Qed.

Lemma connect_spec w :
  ws (api w) = None →
  connect w =
    if document w
    then (Returns (Some (length (sockets w))),
          set_sockets (sockets w ++ [fresh_socket (fullUrl_of w)]) w,
          [WsNew (length (sockets w)) (fullUrl_of w)])
    else (Returns None, set_importing (importing w ++ [fullUrl_of w]) w, []).
Proof.
  intros H. unfold connect, open_socket. mrun. rewrite H.
  destruct (document w); reflexivity.
Qed.

Lemma fire_spec w h pick arg s :
  sockets w !! h = Some s →
  fire h pick arg w = call_listeners h (sock_url s) (pick s) arg w.
Proof.
  intros H. unfold fire. mrun. rewrite H.
  by destruct (call_listeners _ _ _ _ _) as [[? ?] ?].
Qed.

Lemma lookup_map_socket h f w s :
  sockets w !! h = Some s → sockets (map_socket h f w) !! h = Some (f s).
Proof. intros H. cbn. by rewrite list_lookup_alter_eq, H. Qed.

Lemma lookup_map_socket_ne h h' f w :
  h ≠ h' → sockets (map_socket h f w) !! h' = sockets w !! h'.
Proof. intros H. cbn. by rewrite list_lookup_alter_ne. Qed.

Lemma map_socket_twice h f g w :
  map_socket h f (map_socket h g w) = map_socket h (f ∘ g) w.
Proof. unfold map_socket, set_sockets. cbn. by rewrite list_alter_alter_eq. Qed.

Lemma run_open w h s :
  sockets w !! h = Some s →
  on_open s = [OpenListener] →
  run (SockOpen h) w =
    (Returns Nothing,
     set_owner (Some h) (map_socket h (rewire ∘ with_readyState OPEN) w),
     (log_out w [VStr ("Connected to " +:+ quoted (sock_url s))] ++ [Resolve h])%list).
Proof.
  intros Hs Hop. unfold run. mrun.
  rewrite (fire_spec _ _ _ _ _ (lookup_map_socket _ _ _ _ Hs)).
  cbn. rewrite Hop. cbn. mrun. rewrite log_spec. cbn.
  rewrite log_out_map_socket. f_equal; [f_equal|].
  - unfold map_socket, set_sockets, set_owner. cbn.
    by rewrite !list_alter_alter_eq.
  - by rewrite ?app_nil_r.
Qed.

Lemma run_error_opened w h s message :
  sockets w !! h = Some s →
  on_error s = [ErrorListener] →
  run (SockError h message) w =
    (Returns Nothing, drop h w,
     teardown_out h w ("Error, disconnected from " +:+ quoted (sock_url s) +:+ ": "
                       +:+ template message) true).
Proof.
  intros Hs He. unfold run. mrun. rewrite (fire_spec _ _ _ _ _ Hs).
  rewrite He. cbn. mrun. rewrite disconnect_from_callback, log_spec.
  rewrite log_out_drop. unfold teardown_out. cbn.
  by rewrite !app_nil_r.
Qed.

Lemma run_error_fresh w h s message :
  sockets w !! h = Some s →
  on_error s = [ConnectionErrorHandler] →
  run (SockError h message) w =
    (Returns Nothing, drop h w,
     (drop_out h w ++
      [Reject h (JsError ("Could not connect to " +:+ quoted (sock_url s) +:+ ": "
                          +:+ template message))])%list).
Proof.
  intros Hs He. unfold run. mrun. rewrite (fire_spec _ _ _ _ _ Hs).
  rewrite He. cbn. mrun. rewrite disconnect_from_callback.
  cbn. by rewrite !app_nil_r.
Qed.

Lemma run_close_opened w h s :
  sockets w !! h = Some s →
  on_close s = [CloseListener] →
  run (SockClose h) w =
    (Returns Nothing, drop h (map_socket h (with_readyState CLOSED) w),
     teardown_out h w ("Disconnected from " +:+ quoted (sock_url s)) false).
Proof.
  intros Hs He. unfold run. mrun.
  rewrite (fire_spec _ _ _ _ _ (lookup_map_socket _ _ _ _ Hs)).
  cbn. rewrite He. cbn. mrun. rewrite disconnect_from_callback, log_spec.
  rewrite log_out_drop. unfold teardown_out. cbn.
  by rewrite !app_nil_r.
Qed.

Lemma run_close_fresh w h s :
  sockets w !! h = Some s →
  on_close s = [] →
  run (SockClose h) w =
    (Returns Nothing, map_socket h (with_readyState CLOSED) w, []).
Proof.
  intros Hs He. unfold run. mrun.
  rewrite (fire_spec _ _ _ _ _ (lookup_map_socket _ _ _ _ Hs)).
  cbn. by rewrite He.
Qed.

Lemma run_message_world w h s data :
  sockets w !! h = Some s →
  on_message s = [MessageListener] →
  (run (SockMessage h data) w).1.2 = w.
Proof.
  intros Hs Hm. unfold run. mrun. rewrite (fire_spec _ _ _ _ _ Hs), Hm.
  cbn. mrun. destruct (JSON_parse _) as [m|]; [|done].
  destruct (get_prop m "type") as [t|]; [|done].
  by rewrite receive_spec.
Qed.

(** ** The invariant *)

Lemma wired_fresh_socket target : wired (fresh_socket target).
Proof. left. by repeat split; [..|left]. Qed.

Lemma wired_open s :
  wired s → readyState s = CONNECTING → 
  opened_wiring (rewire (with_readyState OPEN s)).
Proof.
  intros [[(Hm & He & Ho & Hc) _]|[_ ?]] Hr; [|done].
  unfold rewire, opened_wiring. cbn. by rewrite Hm, He, Ho, Hc.
Qed.

Lemma wired_opened_state s : wired s → readyState s = OPEN → opened_wiring s.
Proof. intros [[_ [?|?]]|[? _]] Hr; congruence. Qed.

Lemma wired_closed s : wired s → wired (with_readyState CLOSED s).
Proof.
  intros [[? _]|[? _]]; [left|right]; (split; [done|]); cbn; [by right|done].
Qed.

Lemma wired_closing s : wired s → readyState s = OPEN → wired (closing s).
Proof.
  intros Hw Hr. right. unfold closing. rewrite Hr.
  split; [exact (wired_opened_state _ Hw Hr)|done].
Qed.

Lemma inv_initial dbg browser : inv (initial dbg browser).
Proof. split; [intros h s H|intros h H]; done. Qed.

Lemma inv_set_importing l w : inv w → inv (set_importing l w).
Proof. done. Qed.

Lemma inv_new_socket target w :
  inv w → inv (set_sockets (sockets w ++ [fresh_socket target]) w).
Proof.
  intros [Hw Ho]. split.
  - intros h s. cbn. rewrite lookup_app_Some. intros [H|[_ H]]; [by eapply Hw|].
    apply list_lookup_singleton_Some in H as [_ <-]. apply wired_fresh_socket.
  - intros h Hh. specialize (Ho h Hh). unfold ready in *. cbn.
    destruct (sockets w !! h) as [s|] eqn:E; [|done].
    by rewrite (lookup_app_l_Some _ _ _ _ E).
Qed.

Lemma inv_release w : inv w → inv (release w).
Proof.
  intros [Hw Ho]. unfold release. split; [|done].
  destruct (ws (api w)) as [h|] eqn:E; [|exact Hw].
  intros h' s'. cbn. destruct (decide (h = h')) as [<-|Hne].
  - rewrite list_lookup_alter_eq. specialize (Ho h eq_refl). unfold ready in Ho.
    destruct (sockets w !! h) as [s|] eqn:Es; [|done].
    cbn in *. intros [= <-]. apply wired_closing; [by eapply Hw|congruence].
  - rewrite list_lookup_alter_ne by done. apply Hw.
Qed.

Lemma inv_drop h w : inv w → inv (drop h w).
Proof. intros. unfold drop. case_bool_decide; [by apply inv_release|done]. Qed.

Lemma inv_open w h s :
  inv w → sockets w !! h = Some s → readyState s = CONNECTING →
  inv (set_owner (Some h) (map_socket h (rewire ∘ with_readyState OPEN) w)).
Proof.
  intros [Hw Ho] Hs Hr. split.
  - intros h' s'. cbn. destruct (decide (h = h')) as [<-|Hne].
    + rewrite list_lookup_alter_eq, Hs. intros [= <-]. right.
      split; [apply wired_open; [by eapply Hw|done]|done].
    + rewrite list_lookup_alter_ne by done. apply Hw.
  - intros h' [= <-]. unfold ready. cbn. by rewrite list_lookup_alter_eq, Hs.
Qed.

Lemma inv_closed_unowned w h :
  inv w → ws (api w) ≠ Some h → inv (map_socket h (with_readyState CLOSED) w).
Proof.
  intros [Hw Ho] Hne. split.
  - intros h' s'. cbn. destruct (decide (h = h')) as [<-|?].
    + rewrite list_lookup_alter_eq. destruct (sockets w !! h) as [s|] eqn:E; [|done].
      intros [= <-]. apply wired_closed. by eapply Hw.
    + rewrite list_lookup_alter_ne by done. apply Hw.
  - intros h' Hh. cbn in Hh. unfold ready. cbn.
    rewrite list_lookup_alter_ne by congruence. by apply Ho.
Qed.

Lemma inv_closed_owned w h :
  inv w → ws (api w) = Some h →
  inv (release (map_socket h (with_readyState CLOSED) w)).
Proof.
  intros [Hw Ho] Hh. unfold release. cbn. rewrite Hh. split; [|done].
  intros h' s'. cbn. rewrite list_alter_alter_eq.
  destruct (decide (h = h')) as [<-|?].
  - rewrite list_lookup_alter_eq. destruct (sockets w !! h) as [s|] eqn:E; [|done].
    intros [= <-]. cbn. apply wired_closed. by eapply Hw.
  - rewrite list_lookup_alter_ne by done. apply Hw.
Qed.

Lemma inv_closed w h :
  inv w → inv (drop h (map_socket h (with_readyState CLOSED) w)).
Proof.
  intros Hi. unfold drop. cbn [api map_socket set_sockets].
  case_bool_decide; [by apply inv_closed_owned|by apply inv_closed_unowned].
Qed.

Lemma wired_on_open s : wired s → on_open s = [OpenListener].
Proof. by intros [[(_ & _ & ? & _) _]|[(_ & _ & ? & _) _]]. Qed.

Lemma wired_on_message s : wired s → on_message s = [MessageListener].
Proof. by intros [[(? & _) _]|[(? & _) _]]. Qed.

Lemma answer_world {A} (f : A → reply) (m : M A) w :
  (answer f m w).1.2 = (m w).1.2.
Proof. unfold answer. mrun. by destruct (m w) as [[[a|e] w1] o]. Qed.

Lemma answer_out {A} (f : A → reply) (m : M A) w :
  (answer f m w).2 = (m w).2.
Proof.
  unfold answer. mrun. destruct (m w) as [[[a|e] w1] o]; [|done].
  cbn. by rewrite app_nil_r.
Qed.

Lemma enabled_socket i h w :
  (i = SockOpen h ∨ (∃ d, i = SockMessage h d) ∨ (∃ m, i = SockError h m)
   ∨ i = SockClose h) →
  enabled i w = true → ∃ s, sockets w !! h = Some s.
Proof.
  unfold enabled, ready.
  intros [-> | [[d ->] | [[m ->] | ->]]] H; destruct (sockets w !! h) as [s|]; eauto;
    cbn in H; try done; by apply bool_decide_eq_true in H.
Qed.

Lemma inv_run w i : inv w → enabled i w = true → inv (run i w).1.2.
Proof.
  intros Hi En. destruct i.
  - done.
  - cbn [run]. by rewrite answer_world, log_spec.
  - cbn [run]. rewrite answer_world. destruct (ws (api w)) as [h|] eqn:E.
    + by rewrite (connect_connected_spec _ h).
    + rewrite connect_spec by done. destruct (document w); cbn;
        [by apply inv_new_socket|by apply inv_set_importing].
  - cbn [run]. rewrite answer_world, disconnect_spec.
    destruct (_ || _); [by apply inv_release|done].
  - cbn [run]. by rewrite answer_world, receive_spec.
  - cbn [run]. by rewrite answer_world, send_world.
  - unfold run, open_socket. mrun. destruct (importing w) as [|u rest]; [done|].
    cbn. apply (inv_new_socket u (set_importing rest w)). by apply inv_set_importing.
  - destruct (enabled_socket _ h w (or_introl eq_refl) En) as [s Hs].
    cbn in En. apply bool_decide_eq_true in En. unfold ready in En.
    rewrite Hs in En. injection En as Hr.
    pose proof (proj1 Hi _ _ Hs) as Hw.
    rewrite (run_open _ _ s) by auto using wired_on_open. by eapply inv_open.
  - destruct (enabled_socket _ h w (or_intror (or_introl (ex_intro _ data eq_refl))) En)
      as [s Hs].
    rewrite (run_message_world _ _ s); [done|done|].
    apply wired_on_message. by eapply (proj1 Hi).
  - destruct (enabled_socket _ h w
                (or_intror (or_intror (or_introl (ex_intro _ message eq_refl)))) En)
      as [s Hs].
    destruct (proj1 Hi _ _ Hs) as [[(_ & He & _) _]|[(_ & He & _) _]].
    + rewrite (run_error_fresh _ _ s) by done. by apply inv_drop.
    + rewrite (run_error_opened _ _ s) by done. by apply inv_drop.
  - destruct (enabled_socket _ h w (or_intror (or_intror (or_intror eq_refl))) En)
      as [s Hs].
    destruct (proj1 Hi _ _ Hs) as [[(_ & _ & _ & Hc) Hr]|[(_ & _ & _ & Hc) _]].
    + rewrite (run_close_fresh _ _ s) by done. apply inv_closed_unowned; [done|].
      intros Hh. pose proof (proj2 Hi _ Hh) as Ho. unfold ready in Ho.
      rewrite Hs in Ho. cbn in Ho. destruct Hr; congruence.
    + rewrite (run_close_opened _ _ s) by done. by apply inv_closed.
Qed.

Lemma step_run w i w' out :
  step w i = Some (w', out) ↔
  enabled i w = true ∧ (run i w).1.2 = w' ∧ (run i w).2 = out.
Proof.
  unfold step. destruct (enabled i w); [|by split; [|intros [? _]]].
  destruct (run i w) as [[r w1] o]; cbn.
  split; [by intros [= <- <-]|by intros (_ & <- & <-)].
Qed.

Lemma inv_step w i w' out : inv w → step w i = Some (w', out) → inv w'.
Proof. intros Hi (En & <- & _)%step_run. by apply inv_run. Qed.

Lemma inv_steps tr : ∀ w w' out, inv w → steps w tr = Some (w', out) → inv w'.
Proof.
  induction tr as [|i tr IH]; intros w w' out Hi; cbn.
  - by intros [= <- _].
  - destruct (step w i) as [[w1 o1]|] eqn:E1; [|done].
    destruct (steps w1 tr) as [[w2 o2]|] eqn:E2; [|done].
    intros [= <- _]. eapply IH; [|exact E2]. by eapply inv_step.
Qed.

Lemma reachable_inv w : reachable w → inv w.
Proof.
  intros (dbg & browser & tr & out & H).
  eapply inv_steps; [apply inv_initial|exact H].
Qed.

(** ** Staying connected, staying disconnected *)

Lemma isConnected_spec w :
  isConnected w = (Returns (bool_decide (is_Some (ws (api w)))), w, []).
Proof. unfold isConnected. mrun. by destruct (ws (api w)). Qed.

Lemma not_connected w : isConnected w = (Returns false, w, []) ↔ ws (api w) = None.
Proof. rewrite isConnected_spec. destruct (ws (api w)); cbn; split; done. Qed.

Lemma ws_release w : ws (api (release w)) = None.
Proof. done. Qed.

Lemma ws_drop h w : ws (api w) = None → ws (api (drop h w)) = None.
Proof. intros H. unfold drop. by case_bool_decide. Qed.

Lemma ws_drop_owned h w : ws (api w) = Some h → ws (api (drop h w)) = None.
Proof. intros H. unfold drop. by rewrite bool_decide_eq_true_2. Qed.

Lemma api_drop_stale h w : ws (api w) ≠ Some h → drop h w = w.
Proof. intros H. unfold drop. by rewrite bool_decide_eq_false_2. Qed.

(** Without an 'open' event a disconnected instance stays so. *)
Lemma stays_disconnected_step w i w' out :
  inv w → ws (api w) = None → is_open i = false →
  step w i = Some (w', out) → ws (api w') = None.
Proof.
  intros Hi Hn Hop (En & <- & _)%step_run. destruct i; try done.
  - cbn [run]. by rewrite answer_world, log_spec.
  - cbn [run]. rewrite answer_world, connect_spec by done. by destruct (document w).
  - cbn [run]. rewrite answer_world, disconnect_spec. by destruct (_ || _).
  - cbn [run]. by rewrite answer_world, receive_spec.
  - cbn [run]. by rewrite answer_world, send_world.
  - unfold run, open_socket. mrun. by destruct (importing w).
  - destruct (enabled_socket _ h w (or_intror (or_introl (ex_intro _ data eq_refl))) En)
      as [s Hs].
    rewrite (run_message_world _ _ s); [done|done|].
    apply wired_on_message. by eapply (proj1 Hi).
  - destruct (enabled_socket _ h w
                (or_intror (or_intror (or_introl (ex_intro _ message eq_refl)))) En)
      as [s Hs].
    destruct (proj1 Hi _ _ Hs) as [[(_ & He & _) _]|[(_ & He & _) _]].
    + rewrite (run_error_fresh _ _ s) by done. by apply ws_drop.
    + rewrite (run_error_opened _ _ s) by done. by apply ws_drop.
  - destruct (enabled_socket _ h w (or_intror (or_intror (or_intror eq_refl))) En)
      as [s Hs].
    destruct (proj1 Hi _ _ Hs) as [[(_ & _ & _ & Hc) Hr]|[(_ & _ & _ & Hc) _]].
    + by rewrite (run_close_fresh _ _ s).
    + rewrite (run_close_opened _ _ s) by done. by apply ws_drop.
Qed.

Lemma stays_disconnected tr : ∀ w w' out,
  inv w → ws (api w) = None → Forall (λ i, is_open i = false) tr →
  steps w tr = Some (w', out) → ws (api w') = None.
Proof.
  induction tr as [|i tr IH]; intros w w' out Hi Hn Hf; cbn.
  - by intros [= <- _].
  - destruct (step w i) as [[w1 o1]|] eqn:E1; [|done].
    destruct (steps w1 tr) as [[w2 o2]|] eqn:E2; [|done].
    intros [= <- _]. apply Forall_cons in Hf as [Hop Hf].
    eapply IH; [| |exact Hf|exact E2].
    + by eapply inv_step.
    + by eapply stays_disconnected_step.
Qed.

(** Without [disconnect], 'error' and 'close' a connected instance
    stays so. *)
Lemma stays_connected_step w i w' out :
  inv w → is_Some (ws (api w)) → may_release i = false →
  step w i = Some (w', out) → is_Some (ws (api w')).
Proof.
  intros Hi [h0 Hc] Hk (En & <- & _)%step_run. destruct i; try done.
  - cbn [run]. rewrite answer_world, log_spec; cbn; eauto.
  - cbn [run]. rewrite answer_world, (connect_connected_spec _ h0); cbn; eauto.
  - cbn [run]. rewrite answer_world, receive_spec; cbn; eauto.
  - cbn [run]. rewrite answer_world, send_world; cbn; eauto.
  - unfold run, open_socket. mrun. destruct (importing w); cbn; eauto.
  - destruct (enabled_socket _ h w (or_introl eq_refl) En) as [s Hs].
    rewrite (run_open _ _ s); [cbn; eauto|done|].
    apply wired_on_open. by eapply (proj1 Hi).
  - destruct (enabled_socket _ h w (or_intror (or_introl (ex_intro _ data eq_refl))) En)
      as [s Hs].
    rewrite (run_message_world _ _ s); [eauto|done|].
    apply wired_on_message. by eapply (proj1 Hi).
Qed.

Lemma stays_connected tr : ∀ w w' out,
  inv w → is_Some (ws (api w)) → Forall (λ i, may_release i = false) tr →
  steps w tr = Some (w', out) → is_Some (ws (api w')).
Proof.
  induction tr as [|i tr IH]; intros w w' out Hi Hn Hf; cbn.
  - by intros [= <- _].
  - destruct (step w i) as [[w1 o1]|] eqn:E1; [|done].
    destruct (steps w1 tr) as [[w2 o2]|] eqn:E2; [|done].
    intros [= <- _]. apply Forall_cons in Hf as [Hop Hf].
    eapply IH; [| |exact Hf|exact E2].
    + by eapply inv_step.
    + by eapply stays_connected_step.
Qed.

Lemma step_open_owner w h w' out :
  inv w → step w (SockOpen h) = Some (w', out) → ws (api w') = Some h.
Proof.
  intros Hi (En & <- & _)%step_run.
  destruct (enabled_socket _ h w (or_introl eq_refl) En) as [s Hs].
  rewrite (run_open _ _ s); [done|done|].
  apply wired_on_open. by eapply (proj1 Hi).
Qed.

Lemma owner_opened w h :
  inv w → ws (api w) = Some h →
  ∃ s, sockets w !! h = Some s ∧ readyState s = OPEN ∧ opened_wiring s.
Proof.
  intros [Hw Ho] Hh. specialize (Ho h Hh). unfold ready in Ho.
  destruct (sockets w !! h) as [s|] eqn:Hs; [|done].
  injection Ho as Hr. exists s. split; [done|]. split; [done|].
  apply wired_opened_state; [by eapply Hw|done].
Qed.

Lemma dispatched_app o1 o2 : dispatched (o1 ++ o2) = (dispatched o1 ++ dispatched o2)%list.
Proof. apply omap_app. Qed.

Lemma settled_app o1 o2 : settled (o1 ++ o2) = (settled o1 ++ settled o2)%list.
Proof. apply filter_app. Qed.

Lemma dispatched_log_out w args : dispatched (log_out w args) = [].
Proof. unfold log_out. by destruct (debug (api w)). Qed.

Lemma settled_log_out w args : settled (log_out w args) = [].
Proof. unfold log_out. by destruct (debug (api w)). Qed.

Lemma dispatched_drop_out h w : dispatched (drop_out h w) = [].
Proof. unfold drop_out. by case_bool_decide. Qed.

Lemma settled_drop_out h w : settled (drop_out h w) = [].
Proof. unfold drop_out. by case_bool_decide. Qed.

Lemma dispatched_teardown_out h w line flag :
  dispatched (teardown_out h w line flag) = [("close", VObj {["error" := VBool flag]})].
Proof.
  unfold teardown_out.
  by rewrite !dispatched_app, dispatched_drop_out, dispatched_log_out.
Qed.

Lemma settled_teardown_out h w line flag : settled (teardown_out h w line flag) = [].
Proof.
  unfold teardown_out. by rewrite !settled_app, settled_drop_out, settled_log_out.
Qed.

(** ** The sentences of the specification *)

(** C1, as amended: once a [connect()] has reported open, and as long as
    no [disconnect()], no 'error' and no 'close' comes in between, a
    further [connect()] is rejected with "Already connected", creates no
    socket and changes nothing. *)
Theorem connect_after_open_fails w h w1 out1 tr w2 out2 :
  reachable w →
  step w (SockOpen h) = Some (w1, out1) →
  Forall (λ i, may_release i = false) tr →
  steps w1 tr = Some (w2, out2) →
  connect w2 = (Throws AlreadyConnected, w2, []).
Proof.
  intros Hi%reachable_inv Hop Hf Htr.
  assert (is_Some (ws (api w2))) as [h2 Hh].
  { eapply stays_connected; [|by rewrite (step_open_owner _ _ _ _ Hi Hop)|done..].
    by eapply inv_step. }
  by apply connect_connected_spec with h2.
Qed.

(** C2: when [isConnected()] is false, [send] throws the not-connected
    error; it builds, dispatches and writes nothing, in whatever world
    it is called. *)
Theorem send_requires_connection w eventName data rnd fails :
  isConnected w = (Returns false, w, []) →
  send eventName data rnd fails w = (Throws NotConnected, w, []).
Proof. intros H%not_connected. by apply send_not_connected_spec. Qed.

(** The worlds in which [isConnected()] is false: the fresh instance,
    the one [disconnect] has acted on, the one whose socket closed, and
    every world after these until an 'open' event. *)
Lemma disconnected_phases :
  (∀ dbg browser,
     isConnected (initial dbg browser) = (Returns false, initial dbg browser, [])) ∧
  (∀ w arg w' out,
     disconnect arg w = (Returns (VBool true), w', out) →
     isConnected w' = (Returns false, w', [])) ∧
  (∀ w h w' out,
     reachable w → ws (api w) = Some h → step w (SockClose h) = Some (w', out) →
     isConnected w' = (Returns false, w', [])) ∧
  (∀ w tr w' out,
     reachable w → isConnected w = (Returns false, w, []) →
     Forall (λ i, is_open i = false) tr → steps w tr = Some (w', out) →
     isConnected w' = (Returns false, w', [])).
Proof.
  split; [|split; [|split]].
  - intros. by apply not_connected.
  - intros w arg w' out. rewrite disconnect_spec.
    destruct (_ || _); [|done]. intros [= <- _]. by apply not_connected.
  - intros w h w' out Hi%reachable_inv Hh (En & <- & _)%step_run.
    destruct (owner_opened _ _ Hi Hh) as (s & Hs & _ & (_ & _ & _ & Hc)).
    rewrite (run_close_opened _ _ s) by done. apply not_connected.
    by apply ws_drop_owned.
  - intros w tr w' out Hi%reachable_inv Hn%not_connected Hf Htr.
    apply not_connected. by eapply stays_disconnected.
Qed.

Lemma lookup_envelope_given id eventName data k v :
  own_props data !! k = Some v → get_prop (envelope id eventName data) k = Some v.
Proof.
  intros H. unfold envelope, get_prop. cbn.
  by rewrite (lookup_union_Some_l _ _ _ _ H).
Qed.

Lemma lookup_envelope_id id eventName data :
  own_props data !! "event_id" = None →
  get_prop (envelope id eventName data) "event_id" = Some (VStr id).
Proof.
  intros H. unfold envelope, get_prop. cbn.
  rewrite lookup_union_r by done.
  rewrite lookup_insert_ne by done. by rewrite lookup_singleton_eq.
Qed.

Lemma lookup_envelope_type id eventName data :
  own_props data !! "type" = None →
  get_prop (envelope id eventName data) "type" = Some eventName.
Proof.
  intros H. unfold envelope, get_prop. cbn.
  rewrite lookup_union_r by done. by rewrite lookup_insert_eq.
Qed.

(** C3, as amended: the envelope [send] dispatches and writes holds
    every property of the caller's data unmodified; its [event_id] is
    the generated id, which starts with [evt_], and its [type] is the
    event name, unless the data has a property of that name itself. *)
Theorem send_envelope w h eventName data rnd fails :
  ws (api w) = Some h →
  typeof (js_or data (VObj ∅)) = "object" →
  ∃ ev,
    (send eventName data rnd fails w).2 =
      ([Dispatch ("client." +:+ template eventName) ev; Dispatch "client.*" ev] ++
       log_out w [VStr "sent:"; eventName; ev] ++
       (if fails then [] else [WsSend h (JSON_stringify ev)]))%list ∧
    String.prefix "evt_" (generateId "evt_" rnd) = true ∧
    (∀ k v, own_props (js_or data (VObj ∅)) !! k = Some v → get_prop ev k = Some v) ∧
    (own_props (js_or data (VObj ∅)) !! "event_id" = None →
       get_prop ev "event_id" = Some (VStr (generateId "evt_" rnd))) ∧
    (own_props (js_or data (VObj ∅)) !! "type" = None →
       get_prop ev "type" = Some eventName).
Proof.
  intros Hh Ht. eexists. rewrite (send_spec _ h) by done. cbn zeta.
  split; [reflexivity|]. split; [by destruct rnd|].
  split; [apply lookup_envelope_given|].
  split; [apply lookup_envelope_id|apply lookup_envelope_type].
Qed.

(** C4: in a [send] on a connected instance the two dispatches,
    [client.<eventName>] then [client.*], come before the write; when
    the write throws they have happened all the same. *)
Theorem send_dispatches_before_write w h eventName data rnd fails :
  ws (api w) = Some h →
  typeof (js_or data (VObj ∅)) = "object" →
  let event := envelope (generateId "evt_" rnd) eventName (js_or data (VObj ∅)) in
  send eventName data rnd fails w =
    (if fails then Throws SocketError else Returns true, w,
     ([Dispatch ("client." +:+ template eventName) event;
       Dispatch "client.*" event] ++
      log_out w [VStr "sent:"; eventName; event] ++
      (if fails then [] else [WsSend h (JSON_stringify event)]))%list) ∧
  dispatched (send eventName data rnd fails w).2 =
    [("client." +:+ template eventName, event); ("client.*", event)].
Proof.
  intros Hh Ht event. rewrite (send_spec _ h) by done. split; [done|].
  cbn. rewrite dispatched_app, dispatched_log_out. by destruct fails.
Qed.

(** C5, as amended: on a connected instance [send] throws the payload
    error, and dispatches and writes nothing, whenever the data is truthy
    and its [typeof] is not "object"; it does not throw it for an object,
    arrays included; and data that is [undefined] (left out) or [null]
    is taken as the empty object. *)
Theorem send_payload_check w h eventName data rnd fails :
  ws (api w) = Some h →
  (truthy data = true ∧ typeof data ≠ "object" →
     send eventName data rnd fails w = (Throws InvalidPayload, w, [])) ∧
  ((∃ o, data = VObj o) ∨ (∃ l, data = VArr l) →
     (send eventName data rnd fails w).1.1 ≠ Throws InvalidPayload ∧
     dispatched (send eventName data rnd fails w).2 =
       [("client." +:+ template eventName,
         envelope (generateId "evt_" rnd) eventName data);
        ("client.*", envelope (generateId "evt_" rnd) eventName data)]) ∧
  (data = VUndefined ∨ data = VNull →
     send eventName data rnd fails w = send eventName (VObj ∅) rnd fails w).
Proof.
  intros Hh. split; [|split].
  - intros [Htr Hty]. apply send_invalid_spec with h; [done|].
    unfold js_or. by rewrite Htr.
  - intros Hobj.
    assert (js_or data (VObj ∅) = data ∧ typeof data = "object") as [Hor Hty].
    { by destruct Hobj as [[o ->]|[l ->]]. }
    rewrite (send_spec _ h) by (by rewrite ?Hor). rewrite Hor. cbn.
    split; [by destruct fails|].
    rewrite dispatched_app, dispatched_log_out. by destruct fails.
  - intros Habsent. rewrite !(send_spec _ h) by (by destruct Habsent as [-> | ->]).
    by destruct Habsent as [-> | ->].
Qed.

(** C6: [disconnect] with no handle, or with the handle the instance
    holds, tells that socket to close, lets go of it and returns true,
    after which [isConnected()] is false; with any other handle it
    changes nothing, emits nothing and returns without an error. *)
Theorem disconnect_handle w arg :
  disconnect arg w =
    (if decide (arg = None ∨ arg = ws (api w))
     then (Returns (VBool true), release w, closes w)
     else (Returns VUndefined, w, [])) ∧
  isConnected (release w) = (Returns false, release w, []) ∧
  ws (api (release w)) = None ∧
  closes w = match ws (api w) with Some h => [WsClose h] | None => [] end.
Proof.
  split; [|split; [by apply not_connected|done]].
  rewrite disconnect_spec. destruct (decide _) as [[->| ->]|Hn].
  - done.
  - by rewrite (bool_decide_eq_true_2 (ws (api w) = ws (api w))), orb_true_r.
  - rewrite bool_decide_eq_false_2 by tauto.
    rewrite (bool_decide_eq_false_2 (ws (api w) = arg)); [done|].
    intros E. apply Hn. by right.
Qed.

(** C7: an 'error' event on the open socket the instance holds makes
    exactly one dispatch, of [close] with [{error: true}], and settles no
    promise; the instance is disconnected afterwards, and [send] throws
    the not-connected error until an 'open' event comes. *)
Theorem error_after_open w h message w' out :
  reachable w →
  ws (api w) = Some h →
  step w (SockError h message) = Some (w', out) →
  dispatched out = [("close", VObj {["error" := VBool true]})] ∧
  settled out = [] ∧
  isConnected w' = (Returns false, w', []) ∧
  ∀ tr w2 out2 eventName data rnd fails,
    Forall (λ i, is_open i = false) tr →
    steps w' tr = Some (w2, out2) →
    send eventName data rnd fails w2 = (Throws NotConnected, w2, []).
Proof.
  intros Hi%reachable_inv Hh Hst. pose proof (inv_step _ _ _ _ Hi Hst) as Hi'.
  apply step_run in Hst as (En & <- & <-).
  destruct (owner_opened _ _ Hi Hh) as (s & Hs & _ & (_ & He & _)).
  rewrite (run_error_opened _ _ s) in * by done. cbn [fst snd] in *.
  split; [apply dispatched_teardown_out|].
  split; [apply settled_teardown_out|].
  pose proof (ws_drop_owned _ _ Hh) as Hn.
  split; [by apply not_connected|].
  intros tr w2 out2 eventName data rnd fails Hf Htr.
  apply send_not_connected_spec. by eapply stays_disconnected.
Qed.

(** C8: [receive] dispatches [server.<eventName>] and then [server.*],
    each with the payload as given, dispatches nothing else, leaves the
    world as it is and returns true. *)
Theorem receive_dispatches w eventName event :
  receive eventName event w =
    (Returns true, w,
     (log_out w [VStr "received:"; eventName; event] ++
      [Dispatch ("server." +:+ template eventName) event;
       Dispatch "server.*" event])%list) ∧
  dispatched (receive eventName event w).2 =
    [("server." +:+ template eventName, event); ("server.*", event)].
Proof.
  rewrite receive_spec. split; [done|].
  cbn [snd]. by rewrite dispatched_app, dispatched_log_out.
Qed.

(** C9, as amended: in every reachable world the socket the instance
    holds, if any, is open; and an 'error' or 'close' event of a socket
    that is not the one held leaves the instance as it is. *)
Theorem stale_teardown_ignored w :
  reachable w →
  (∀ h, ws (api w) = Some h → ready w h = Some OPEN) ∧
  (∀ h i w' out,
     ws (api w) ≠ Some h →
     (∃ message, i = SockError h message) ∨ i = SockClose h →
     step w i = Some (w', out) →
     api w' = api w).
Proof.
  intros Hi%reachable_inv. split; [exact (proj2 Hi)|].
  intros h i w' out Hne Hev (En & <- & _)%step_run.
  assert (∃ s, sockets w !! h = Some s) as [s Hs].
  { destruct Hev as [[message ->]| ->]; eapply enabled_socket; eauto. }
  destruct Hev as [[message ->]| ->].
  - destruct (proj1 Hi _ _ Hs) as [[(_ & He & _) _]|[(_ & He & _) _]].
    + rewrite (run_error_fresh _ _ s) by done. cbn. by rewrite api_drop_stale.
    + rewrite (run_error_opened _ _ s) by done. cbn. by rewrite api_drop_stale.
  - destruct (proj1 Hi _ _ Hs) as [[(_ & _ & _ & Hc) _]|[(_ & _ & _ & Hc) _]].
    + by rewrite (run_close_fresh _ _ s).
    + rewrite (run_close_opened _ _ s) by done. cbn.
      by rewrite api_drop_stale.
Qed.

End properties.

(** ** The two files side by side *)

Section two_files.

Context {hst : Host} (cfg1 cfg2 : Settings).

Lemma simM_ret {A B} (R : A → B → Prop) a b : R a b → simM R (mret a) (mret b).
Proof. intros H w1 w2 Hs. split; [done|]. split; [done|constructor]. Qed.

Lemma simM_throw {A B} (R : A → B → Prop) e :
  simM R (throw (A:=A) e) (throw (A:=B) e).
Proof. intros w1 w2 Hs. split; [done|]. split; [done|constructor]. Qed.

Lemma simM_get : simM sim get get.
Proof. intros w1 w2 Hs. split; [done|]. split; [done|constructor]. Qed.

Lemma simM_emit e1 e2 : same_effect e1 e2 → simM eq (emit e1) (emit e2).
Proof. intros H w1 w2 Hs. split; [done|]. split; [done|by constructor]. Qed.

Lemma simM_modify f1 f2 :
  (∀ w1 w2, sim w1 w2 → sim (f1 w1) (f2 w2)) → simM eq (modify f1) (modify f2).
Proof.
  intros H w1 w2 Hs. split; [done|]. split; [by apply H|constructor].
Qed.

Lemma simM_bind {A1 A2 B1 B2} (R : A1 → A2 → Prop) (S : B1 → B2 → Prop)
    (m1 : M A1) (m2 : M A2) (k1 : A1 → M B1) (k2 : A2 → M B2) :
  simM R m1 m2 →
  (∀ a1 a2, R a1 a2 → simM S (k1 a1) (k2 a2)) →
  simM S (m1 ≫= k1) (m2 ≫= k2).
Proof.
  intros Hm Hk w1 w2 Hs. specialize (Hm w1 w2 Hs). mrun.
  destruct (m1 w1) as [[[a1|e1] w1'] o1], (m2 w2) as [[[a2|e2] w2'] o2];
    cbn in Hm; destruct Hm as (Hr & Hw & Ho); try done.
  specialize (Hk a1 a2 Hr w1' w2' Hw).
  destruct (k1 a1 w1') as [[r1 w1''] o1'], (k2 a2 w2') as [[r2 w2''] o2'].
  cbn in *. destruct Hk as (? & ? & ?). split; [done|]. split; [done|].
  by apply Forall2_app.
Qed.

Lemma same_effects_refl out : Forall2 same_effect out out.
Proof. induction out; constructor; [apply same_effect_refl|done]. Qed.

Lemma sim_debug w1 w2 : sim w1 w2 → debug (api w1) = debug (api w2).
Proof. by intros [[? _] _]. Qed.

Lemma sim_ws w1 w2 : sim w1 w2 → ws (api w1) = ws (api w2).
Proof. by intros [[_ ?] _]. Qed.

Lemma sim_lookup w1 w2 h :
  sim w1 w2 → option_Forall2 same_socket (sockets w1 !! h) (sockets w2 !! h).
Proof. intros (_ & H & _). by apply Forall2_lookup. Qed.

Lemma sim_set_owner o w1 w2 : sim w1 w2 → sim (set_owner o w1) (set_owner o w2).
Proof. intros ([Hd _] & ? & ? & ?). by repeat split. Qed.

Lemma sim_map_socket h f w1 w2 :
  (∀ s1 s2, same_socket s1 s2 → same_socket (f s1) (f s2)) →
  sim w1 w2 → sim (map_socket h f w1) (map_socket h f w2).
Proof.
  intros Hf (? & Hl & ? & ?). split; [done|]. split; [|done].
  cbn. apply Forall2_alter; [done|]. intros x y _ _. apply Hf.
Qed.

Lemma same_socket_readyState r s1 s2 :
  same_socket s1 s2 → same_socket (with_readyState r s1) (with_readyState r s2).
Proof. intros (? & ? & ? & ? & ?). by repeat split. Qed.

Lemma same_socket_closing s1 s2 :
  same_socket s1 s2 → same_socket (closing s1) (closing s2).
Proof.
  intros H. unfold closing. rewrite <- (proj1 H).
  destruct (readyState s1); by try apply same_socket_readyState.
Qed.

Lemma same_socket_on_error f s1 s2 :
  same_socket s1 s2 → same_socket (with_on_error f s1) (with_on_error f s2).
Proof. intros (? & ? & He & ? & ?). repeat split; try done. cbn. by rewrite He. Qed.

Lemma same_socket_on_close f s1 s2 :
  same_socket s1 s2 → same_socket (with_on_close f s1) (with_on_close f s2).
Proof. intros (? & ? & ? & ? & Hc). repeat split; try done. cbn. by rewrite Hc. Qed.

Lemma sim_release w1 w2 : sim w1 w2 → sim (release w1) (release w2).
Proof.
  intros Hs. unfold release. rewrite <- (sim_ws _ _ Hs). apply sim_set_owner.
  destruct (ws (api w1)); [|done].
  by apply sim_map_socket; [apply same_socket_closing|].
Qed.

Lemma sim_new_socket u1 u2 w1 w2 :
  sim w1 w2 →
  sim (set_sockets (sockets w1 ++ [fresh_socket u1]) w1)
      (set_sockets (sockets w2 ++ [fresh_socket u2]) w2).
Proof.
  intros (? & Hl & ? & ?). split; [done|]. split; [|done].
  cbn. apply Forall2_app; [done|]. by repeat constructor.
Qed.

Lemma sim_set_importing l1 l2 w1 w2 :
  length l1 = length l2 → sim w1 w2 →
  sim (set_importing l1 w1) (set_importing l2 w2).
Proof. intros Hl (? & ? & ? & ?). split; [done|]. by split. Qed.

Lemma log_out_sim w1 w2 args : sim w1 w2 → log_out w1 args = log_out w2 args.
Proof. intros Hs. unfold log_out. by rewrite (sim_debug _ _ Hs). Qed.

Lemma simM_log args : simM eq (log args) (log args).
Proof.
  intros w1 w2 Hs. rewrite !log_spec. cbn. split; [done|]. split; [done|].
  rewrite (log_out_sim _ _ _ Hs). apply same_effects_refl.
Qed.

(** A console line about the target: the same line but for the target. *)
Lemma simM_log_target before after u1 u2 :
  simM eq (log [VStr (before +:+ quoted u1 +:+ after)])
          (log [VStr (before +:+ quoted u2 +:+ after)]).
Proof.
  intros w1 w2 Hs. rewrite !log_spec. cbn. split; [done|]. split; [done|].
  unfold log_out. rewrite (sim_debug _ _ Hs). destruct (debug (api w2)); cbn.
  - constructor; [apply same_effect_log|constructor].
  - constructor.
Qed.

Lemma simM_dispatch n p : simM eq (dispatch n p) (dispatch n p).
Proof.
  intros w1 w2 Hs. cbn. split; [done|]. split; [done|]. apply same_effects_refl.
Qed.

Lemma simM_receive eventName event :
  simM eq (receive eventName event) (receive eventName event).
Proof.
  intros w1 w2 Hs. rewrite !receive_spec. cbn. split; [done|]. split; [done|].
  rewrite (log_out_sim _ _ _ Hs). apply same_effects_refl.
Qed.

Lemma simM_disconnect arg : simM eq (disconnect arg) (disconnect arg).
Proof.
  intros w1 w2 Hs. rewrite !disconnect_spec. rewrite <- (sim_ws _ _ Hs).
  destruct (_ || _); cbn.
  - split; [done|]. split; [by apply sim_release|].
    unfold closes. rewrite <- (sim_ws _ _ Hs). apply same_effects_refl.
  - split; [done|]. split; [done|constructor].
Qed.

Lemma simM_send eventName data rnd fails :
  simM eq (send eventName data rnd fails) (send eventName data rnd fails).
Proof.
  intros w1 w2 Hs. pose proof (sim_ws _ _ Hs) as Hw.
  destruct (ws (api w1)) as [h|] eqn:E1.
  - symmetry in Hw.
    destruct (decide (typeof (js_or data (VObj ∅)) = "object")) as [Ht|Ht].
    + rewrite !(send_spec _ h) by done. cbn. split; [by destruct fails|].
      split; [done|]. rewrite (log_out_sim _ _ _ Hs). apply same_effects_refl.
    + rewrite !(send_invalid_spec _ h) by done. cbn.
      split; [done|]. split; [done|constructor].
  - symmetry in Hw. rewrite !send_not_connected_spec by done. cbn.
    split; [done|]. split; [done|constructor].
Qed.

Lemma simM_answer {A} (f : A → reply) (m1 m2 : M A) :
  simM eq m1 m2 → simM eq (answer f m1) (answer f m2).
Proof.
  intros H. unfold answer. eapply simM_bind; [exact H|].
  intros a ? <-. by apply simM_ret.
Qed.

Lemma simM_open_socket u1 u2 : simM eq (open_socket u1) (open_socket u2).
Proof.
  intros w1 w2 Hs. unfold open_socket. mrun.
  rewrite (Forall2_length _ _ _ (proj1 (proj2 Hs))).
  split; [done|]. split; [by apply sim_new_socket|].
  constructor; [apply same_effect_new|constructor].
Qed.

Lemma simM_connect : simM eq (connect (cfg:=cfg1)) (connect (cfg:=cfg2)).
Proof.
  intros w1 w2 Hs. pose proof (sim_ws _ _ Hs) as Hw.
  destruct (ws (api w1)) as [h|] eqn:E1; symmetry in Hw.
  - rewrite !(connect_connected_spec _ h) by done. cbn.
    split; [done|]. split; [done|constructor].
  - rewrite !connect_spec by done.
    rewrite <- (proj2 (proj2 (proj2 Hs))). destruct (document w1); cbn.
    + rewrite (Forall2_length _ _ _ (proj1 (proj2 Hs))).
      split; [done|]. split; [by apply sim_new_socket|].
      constructor; [apply same_effect_new|constructor].
    + split; [done|]. split; [|constructor].
      apply sim_set_importing; [|done]. rewrite !length_app.
      by rewrite (proj1 (proj2 (proj2 Hs))).
Qed.

Lemma append_empty_r (s : string) : s +:+ "" = s.
Proof.
  induction s as [|c s IH]; [done|].
  change (String c (s +:+ "") = String c s). by rewrite IH.
Qed.

Lemma simM_call_listener h u1 u2 l arg :
  simM eq (call_listener h u1 l arg) (call_listener h u2 l arg).
Proof.
  destruct l; cbn [call_listener].
  - destruct (JSON_parse _) as [message|]; [|apply simM_throw].
    destruct (get_prop message "type") as [type|]; [|apply simM_throw].
    eapply simM_bind; [apply simM_receive|]. intros _ _ _. by apply simM_ret.
  - eapply simM_bind; [apply simM_disconnect|]. intros _ _ _.
    apply simM_emit, same_effect_reject.
  - eapply simM_bind.
    { rewrite <- (append_empty_r (quoted u1)), <- (append_empty_r (quoted u2)).
      apply simM_log_target. }
    intros _ _ _. eapply simM_bind.
    { apply simM_modify. intros w1 w2. apply sim_map_socket.
      apply same_socket_on_error. }
    intros _ _ _. eapply simM_bind.
    { apply simM_modify. intros w1 w2. apply sim_map_socket.
      apply same_socket_on_error. }
    intros _ _ _. eapply simM_bind.
    { apply simM_modify. intros w1 w2. apply sim_map_socket.
      apply same_socket_on_close. }
    intros _ _ _. eapply simM_bind.
    { apply simM_modify. intros w1 w2. apply sim_set_owner. }
    intros _ _ _. apply simM_emit, same_effect_refl.
  - eapply simM_bind; [apply simM_disconnect|]. intros _ _ _.
    eapply simM_bind; [apply simM_log_target|]. intros _ _ _.
    eapply simM_bind; [apply simM_dispatch|]. intros _ _ _. by apply simM_ret.
  - eapply simM_bind; [apply simM_disconnect|]. intros _ _ _.
    eapply simM_bind.
    { rewrite <- (append_empty_r (quoted u1)), <- (append_empty_r (quoted u2)).
      apply simM_log_target. }
    intros _ _ _.
    eapply simM_bind; [apply simM_dispatch|]. intros _ _ _. by apply simM_ret.
Qed.

Lemma simM_call_listeners h u1 u2 ls arg :
  simM eq (call_listeners h u1 ls arg) (call_listeners h u2 ls arg).
Proof.
  induction ls as [|l ls IH]; cbn [call_listeners]; [by apply simM_ret|].
  eapply simM_bind; [apply simM_call_listener|]. intros _ _ _. exact IH.
Qed.

Lemma simM_fire h pick arg :
  (∀ s1 s2, same_socket s1 s2 → pick s1 = pick s2) →
  simM eq (fire h pick arg) (fire h pick arg).
Proof.
  intros Hp. unfold fire. eapply simM_bind; [apply simM_get|].
  intros w1 w2 Hs. destruct (sim_lookup _ _ h Hs) as [s1 s2 Hss|].
  - rewrite (Hp _ _ Hss). apply simM_call_listeners.
  - by apply simM_ret.
Qed.

Lemma sim_ready w1 w2 h : sim w1 w2 → ready w1 h = ready w2 h.
Proof.
  intros Hs. unfold ready. destruct (sim_lookup _ _ h Hs) as [s1 s2 Hss|]; [|done].
  cbn. by rewrite (proj1 Hss).
Qed.

Lemma sim_enabled i w1 w2 : sim w1 w2 → enabled i w1 = enabled i w2.
Proof.
  intros Hs. destruct i; cbn; try done; rewrite ?(sim_ready _ _ _ Hs); try done.
  pose proof (proj1 (proj2 (proj2 Hs))) as Hl.
  destruct (importing w1), (importing w2); done.
Qed.

Lemma simM_run i : simM eq (run (cfg:=cfg1) i) (run (cfg:=cfg2) i).
Proof.
  destruct i; cbn [run].
  - apply simM_answer. intros w1 w2 Hs. rewrite !isConnected_spec. cbn.
    rewrite (sim_ws _ _ Hs). split; [done|]. split; [done|constructor].
  - apply simM_answer, simM_log.
  - apply simM_answer, simM_connect.
  - apply simM_answer, simM_disconnect.
  - apply simM_answer, simM_receive.
  - apply simM_answer, simM_send.
  - eapply simM_bind; [apply simM_get|]. intros w1 w2 Hs.
    pose proof (proj1 (proj2 (proj2 Hs))) as Hl.
    destruct (importing w1) as [|u1 l1], (importing w2) as [|u2 l2];
      [by apply simM_ret|discriminate Hl|discriminate Hl|].
    eapply simM_bind.
    { apply simM_modify. intros ? ?. apply sim_set_importing. by injection Hl. }
    intros _ _ _. eapply simM_bind; [apply simM_open_socket|].
    intros _ _ _. by apply simM_ret.
  - eapply simM_bind.
    { apply simM_modify. intros ? ?. apply sim_map_socket.
      apply same_socket_readyState. }
    intros _ _ _. eapply simM_bind.
    { apply simM_fire. by intros s1 s2 (_ & _ & _ & ? & _). }
    intros _ _ _. by apply simM_ret.
  - eapply simM_bind.
    { apply simM_fire. by intros s1 s2 (_ & ? & _). }
    intros _ _ _. by apply simM_ret.
  - eapply simM_bind.
    { apply simM_fire. by intros s1 s2 (_ & _ & ? & _). }
    intros _ _ _. by apply simM_ret.
  - eapply simM_bind.
    { apply simM_modify. intros ? ?. apply sim_map_socket.
      apply same_socket_readyState. }
    intros _ _ _. eapply simM_bind.
    { apply simM_fire. by intros s1 s2 (_ & _ & _ & _ & ?). }
    intros _ _ _. by apply simM_ret.
Qed.

Lemma sim_initial dbg browser :
  sim (initial (cfg:=cfg1) dbg browser) (initial (cfg:=cfg2) dbg browser).
Proof. split; [done|]. split; [constructor|done]. Qed.

End two_files.

(** C10: the class of src/lib/api.js and the class of its copy behave
    alike. Fresh instances differ in the connection target only, and from
    worlds that differ in the connection target only every method and
    every socket callback is enabled in both or in neither, gives the same
    result and leads to worlds and effects that again differ in the
    connection target only. *)
Theorem two_files_agree {hst : Host} (key1 key2 : string) :
  (∀ dbg browser,
     sim (initial (cfg:=lib_api key1) dbg browser)
         (initial (cfg:=part_000 key2) dbg browser)) ∧
  (∀ i w1 w2,
     sim w1 w2 →
     enabled i w1 = enabled i w2 ∧
     same_result eq (run (cfg:=lib_api key1) i w1).1.1
                    (run (cfg:=part_000 key2) i w2).1.1 ∧
     sim (run (cfg:=lib_api key1) i w1).1.2 (run (cfg:=part_000 key2) i w2).1.2 ∧
     Forall2 same_effect (run (cfg:=lib_api key1) i w1).2
                         (run (cfg:=part_000 key2) i w2).2).
Proof.
  split; [apply sim_initial|].
  intros i w1 w2 Hs. split; [by apply sim_enabled|]. by apply simM_run.
Qed.

(** * Further properties of the life cycle *)

Section life_cycle.

Context {hst : Host} {cfg : Settings}.

(** ** What the remaining inputs compute *)

Lemma run_message_spec w h s data :
  sockets w !! h = Some s →
  on_message s = [MessageListener] →
  run (SockMessage h data) w =
    match JSON_parse (template data) with
    | None => (Throws SyntaxError, w, [])
    | Some message =>
        match get_prop message "type" with
        | None => (Throws TypeError, w, [])
        | Some type =>
            (Returns Nothing, w,
             (log_out w [VStr "received:"; type; message] ++
              [Dispatch ("server." +:+ template type) message;
               Dispatch "server.*" message])%list)
        end
    end.
Proof.
  intros Hs Hm. unfold run. mrun. rewrite (fire_spec _ _ _ _ _ Hs), Hm.
  cbn. mrun. destruct (JSON_parse _) as [m|]; [|done].
  destruct (get_prop m "type") as [t|]; [|done].
  rewrite receive_spec. cbn. by rewrite !app_nil_r.
Qed.

Lemma run_import_spec w :
  run ImportDone w =
    match importing w with
    | [] => (Returns Nothing, w, [])
    | target :: rest =>
        (Returns Nothing,
         set_sockets (sockets w ++ [fresh_socket target]) (set_importing rest w),
         [WsNew (length (sockets w)) target])
    end.
Proof. unfold run, open_socket. mrun. by destruct (importing w). Qed.

Lemma socket_of_event w i h :
  inv w →
  (i = SockOpen h ∨ (∃ d, i = SockMessage h d) ∨ (∃ m, i = SockError h m)
   ∨ i = SockClose h) →
  enabled i w = true → ∃ s, sockets w !! h = Some s ∧ wired s.
Proof.
  intros Hi Hev En. destruct (enabled_socket i h w Hev En) as [s Hs].
  exists s. split; [done|]. by eapply (proj1 Hi).
Qed.

Lemma not_held_unless_open w h s :
  inv w → sockets w !! h = Some s → readyState s ≠ OPEN → ws (api w) ≠ Some h.
Proof.
  intros Hi Hs Hr Hh. pose proof (proj2 Hi _ Hh) as Ho. unfold ready in Ho.
  rewrite Hs in Ho. cbn in Ho. congruence.
Qed.

Lemma enabled_not_closed w i h :
  (∃ m, i = SockError h m) ∨ i = SockClose h →
  enabled i w = true → ready w h ≠ Some CLOSED.
Proof.
  intros [[m ->]| ->] H; cbn in H; apply andb_true_iff in H as [_ H];
    by apply negb_true_iff, bool_decide_eq_false in H.
Qed.

Lemma wired_connecting s : wired s → readyState s = CONNECTING → fresh_wiring s.
Proof. by intros [[? _]|[_ ?]] Hr. Qed.

Lemma wired_after_open s :
  wired s → readyState s = OPEN ∨ readyState s = CLOSING → opened_wiring s.
Proof. intros [[_ [?|?]]|[? _]] [?|?]; congruence. Qed.

Lemma drop_out_held h w :
  Forall (λ e, ∃ h', e = WsClose h' ∧ ws (api w) = Some h') (drop_out h w).
Proof.
  unfold drop_out. case_bool_decide; [|constructor].
  constructor; [by exists h|constructor].
Qed.

(** ** Where effects come from *)

Lemma emitted_log_out w i args : Forall (emitted_by w i) (log_out w args).
Proof.
  unfold log_out. destruct (debug (api w)) eqn:E; [|constructor].
  by constructor; [|constructor].
Qed.

Lemma emitted_drop_out w i h :
  match i with
  | CallDisconnect _ | SockError _ _ | SockClose _ => True
  | _ => False
  end →
  Forall (emitted_by w i) (drop_out h w).
Proof.
  intros Hi. unfold drop_out. case_bool_decide; [|constructor].
  by constructor; [|constructor].
Qed.

Lemma step_effects w i w' out :
  inv w → step w i = Some (w', out) → Forall (emitted_by w i) out.
Proof.
  intros Hi (En & _ & <-)%step_run. destruct i.
  - cbn. constructor.
  - cbn [run]. rewrite answer_out, log_spec. apply emitted_log_out.
  - cbn [run]. rewrite answer_out. destruct (ws (api w)) as [h|] eqn:E.
    + rewrite (connect_connected_spec _ h) by done. constructor.
    + rewrite connect_spec by done. destruct (document w); cbn; [|constructor].
      constructor; [|constructor]. split; [done|by left].
  - cbn [run]. rewrite answer_out, disconnect_spec.
    destruct (_ || _); cbn; [|constructor].
    unfold closes. destruct (ws (api w)) eqn:E; [|constructor].
    by constructor; [|constructor].
  - cbn [run]. rewrite answer_out, receive_spec. cbn.
    apply Forall_app. split; [apply emitted_log_out|].
    by repeat constructor.
  - cbn [run]. rewrite answer_out. destruct (ws (api w)) as [h|] eqn:E.
    + destruct (decide (typeof (js_or data (VObj ∅)) = "object")).
      * rewrite (send_spec _ h) by done. cbn.
        constructor; [done|]. constructor; [done|].
        apply Forall_app. split; [apply emitted_log_out|].
        destruct fails; [constructor|].
        constructor; [|constructor]. split; [done|]. by eexists _, _, _.
      * rewrite (send_invalid_spec _ h) by done. constructor.
    + rewrite send_not_connected_spec by done. constructor.
  - rewrite run_import_spec. destruct (importing w); cbn; [constructor|].
    constructor; [|constructor]. split; [done|by right].
  - destruct (socket_of_event w (SockOpen h) h Hi) as (s & Hs & Hw); [by left|done|].
    rewrite (run_open _ _ s) by auto using wired_on_open. cbn.
    apply Forall_app. split; [apply emitted_log_out|].
    constructor; [|constructor]. split; [done|].
    cbn in En. by apply bool_decide_eq_true in En.
  - destruct (socket_of_event w (SockMessage h data) h Hi) as (s & Hs & Hw);
      [right; left; by eexists|done|].
    rewrite (run_message_spec _ _ s) by auto using wired_on_message.
    destruct (JSON_parse _) as [m|]; [|constructor].
    destruct (get_prop m "type") as [t|]; [|constructor]. cbn.
    apply Forall_app. split; [apply emitted_log_out|]. by repeat constructor.
  - destruct (socket_of_event w (SockError h message) h Hi) as (s & Hs & Hw);
      [right; right; left; by eexists|done|].
    destruct Hw as [[(Hm & He & Ho & Hc) Hr]|[(_ & He & _) _]].
    + rewrite (run_error_fresh _ _ s) by done. cbn.
      apply Forall_app. split; [by apply emitted_drop_out|].
      constructor; [|constructor]. split; [by eexists|].
      pose proof (enabled_not_closed w _ h (or_introl (ex_intro _ message eq_refl)) En)
        as Hnc.
      unfold ready in *. rewrite Hs in *. cbn in *.
      destruct Hr as [->| Hr]; [done|]. by rewrite Hr in Hnc.
    + rewrite (run_error_opened _ _ s) by done. cbn. unfold teardown_out.
      apply Forall_app. split; [by apply emitted_drop_out|].
      apply Forall_app. split; [apply emitted_log_out|]. by repeat constructor.
  - destruct (socket_of_event w (SockClose h) h Hi) as (s & Hs & Hw);
      [by right; right; right|done|].
    destruct Hw as [[(_ & _ & _ & Hc) _]|[(_ & _ & _ & Hc) _]].
    + rewrite (run_close_fresh _ _ s) by done. constructor.
    + rewrite (run_close_opened _ _ s) by done. cbn. unfold teardown_out.
      apply Forall_app. split; [by apply emitted_drop_out|].
      apply Forall_app. split; [apply emitted_log_out|]. by repeat constructor.
Qed.


(** ** How a step changes the world *)

Lemma drop_changes h w : changes w (drop h w).
Proof. unfold drop. case_bool_decide; constructor. Qed.

Lemma step_changes w i w' out :
  inv w → step w i = Some (w', out) → changes w w'.
Proof.
  intros Hi (En & <- & _)%step_run. destruct i.
  - constructor.
  - cbn [run]. rewrite answer_world, log_spec. constructor.
  - cbn [run]. rewrite answer_world. destruct (ws (api w)) as [h|] eqn:E.
    + rewrite (connect_connected_spec _ h) by done. constructor.
    + rewrite connect_spec by done. destruct (document w); cbn.
      * apply (changes_new_socket w (fullUrl_of w) (importing w)). by left.
      * constructor.
  - cbn [run]. rewrite answer_world, disconnect_spec.
    destruct (_ || _); constructor.
  - cbn [run]. rewrite answer_world, receive_spec. constructor.
  - cbn [run]. rewrite answer_world, send_world. constructor.
  - rewrite run_import_spec. destruct (importing w) as [|u rest] eqn:E; cbn.
    + constructor.
    + apply (changes_new_socket w u rest). by right.
  - destruct (socket_of_event w (SockOpen h) h Hi) as (s & Hs & Hw); [by left|done|].
    rewrite (run_open _ _ s) by auto using wired_on_open. cbn.
    cbn in En. apply bool_decide_eq_true in En. unfold ready in En.
    rewrite Hs in En. injection En as Hr.
    apply (changes_open w h s); auto using wired_connecting.
  - destruct (socket_of_event w (SockMessage h data) h Hi) as (s & Hs & Hw);
      [right; left; by eexists|done|].
    rewrite (run_message_world _ _ s) by auto using wired_on_message. constructor.
  - destruct (socket_of_event w (SockError h message) h Hi) as (s & Hs & Hw);
      [right; right; left; by eexists|done|].
    destruct Hw as [[(_ & He & _) _]|[(_ & He & _) _]].
    + rewrite (run_error_fresh _ _ s) by done. apply drop_changes.
    + rewrite (run_error_opened _ _ s) by done. apply drop_changes.
  - destruct (socket_of_event w (SockClose h) h Hi) as (s & Hs & Hw);
      [by right; right; right|done|].
    destruct Hw as [[(_ & _ & _ & Hc) Hr]|[(_ & _ & _ & Hc) _]].
    + rewrite (run_close_fresh _ _ s) by done. cbn.
      replace (map_socket h (with_readyState CLOSED) w)
        with (drop h (map_socket h (with_readyState CLOSED) w)); [constructor|].
      apply api_drop_stale. cbn.
      apply (not_held_unless_open w h s Hi Hs). destruct Hr; congruence.
    + rewrite (run_close_opened _ _ s) by done. constructor.
Qed.

Lemma advances_refl s : advances s s.
Proof. by split. Qed.

Lemma advances_trans s1 s2 s3 : advances s1 s2 → advances s2 s3 → advances s1 s3.
Proof. intros [? ?] [? ?]. split; [congruence|lia]. Qed.

Lemma advances_closing s : advances s (closing s).
Proof.
  unfold closing. split; destruct (readyState s) eqn:E; cbn; rewrite ?E; cbn;
    (done || lia).
Qed.

Lemma advances_closed s : advances s (with_readyState CLOSED s).
Proof. split; [done|]. cbn. destruct (readyState s); cbn; lia. Qed.

Lemma advances_open s :
  readyState s = CONNECTING → advances s ((rewire ∘ with_readyState OPEN) s).
Proof. intros Hr. split; [done|]. rewrite Hr. cbn. lia. Qed.

Lemma advances_map_socket h' f w h s :
  (∀ s0, sockets w !! h' = Some s0 → advances s0 (f s0)) →
  sockets w !! h = Some s →
  ∃ s', sockets (map_socket h' f w) !! h = Some s' ∧ advances s s'.
Proof.
  intros Hf Hs. cbn. destruct (decide (h' = h)) as [->|Hne].
  - rewrite list_lookup_alter_eq, Hs. cbn. eauto.
  - rewrite list_lookup_alter_ne by done. eauto using advances_refl.
Qed.

Lemma advances_release w h s :
  sockets w !! h = Some s →
  ∃ s', sockets (release w) !! h = Some s' ∧ advances s s'.
Proof.
  intros Hs. unfold release. destruct (ws (api w)) as [h'|].
  - apply (advances_map_socket h' closing w h s); [|done].
    intros. apply advances_closing.
  - eauto using advances_refl.
Qed.

Lemma advances_drop h' w h s :
  sockets w !! h = Some s →
  ∃ s', sockets (drop h' w) !! h = Some s' ∧ advances s s'.
Proof.
  intros Hs. unfold drop. case_bool_decide; [by apply advances_release|].
  eauto using advances_refl.
Qed.

Lemma changes_advances w w' h s :
  changes w w' → sockets w !! h = Some s →
  ∃ s', sockets w' !! h = Some s' ∧ advances s s'.
Proof.
  intros Hc Hs. destruct Hc as [|u rest _| | |h' s0 Hs0 Hr _|h'].
  - eauto using advances_refl.
  - exists s. split; [|apply advances_refl]. cbn. by apply lookup_app_l_Some.
  - eauto using advances_refl.
  - by apply advances_release.
  - apply (advances_map_socket h' _ w h s); [|done].
    intros s1 Hs1. apply advances_open. congruence.
  - destruct (advances_map_socket h' (with_readyState CLOSED) w h s) as (s1 & Hs1 & Ha1);
      [intros; apply advances_closed|done|].
    destruct (advances_drop h' _ h s1 Hs1) as (s2 & Hs2 & Ha2).
    eauto using advances_trans.
Qed.

(** ** Promises *)

Lemma emitted_settles w i e h :
  emitted_by w i e → ready w h ≠ Some CONNECTING → settles h e = false.
Proof.
  destruct e; try done; cbn; intros [_ Hr] Hn;
    apply bool_decide_eq_false; congruence.
Qed.

Lemma never_settled tr : ∀ w w' out h s,
  inv w → sockets w !! h = Some s → readyState s ≠ CONNECTING →
  steps w tr = Some (w', out) → Forall (λ e, settles h e = false) out.
Proof.
  induction tr as [|i tr IH]; intros w w' out h s Hi Hs Hr; cbn.
  - intros [= _ <-]. constructor.
  - destruct (step w i) as [[w1 o1]|] eqn:E1; [|done].
    destruct (steps w1 tr) as [[w2 o2]|] eqn:E2; [|done].
    intros [= _ <-]. apply Forall_app. split.
    + eapply Forall_impl; [by eapply step_effects|].
      intros e He. apply (emitted_settles w i); [done|].
      unfold ready. rewrite Hs. cbn. congruence.
    + destruct (changes_advances w w1 h s) as (s1 & Hs1 & _ & Hrank);
        [by eapply step_changes|done|].
      apply (IH w1 w2 o2 h s1); [by eapply inv_step|done| |done].
      intros E. rewrite E in Hrank. destruct (readyState s); cbn in Hrank; (done || lia).
Qed.

(** ** The callbacks of a socket that has not opened *)

(** X1: an 'error' event on a socket that is still connecting calls
    [reject] with "Could not connect to ..." and the message of the error;
    it dispatches nothing, closes nothing and leaves the world as it is. *)
Theorem error_before_open w h message w' out :
  reachable w →
  ready w h = Some CONNECTING →
  step w (SockError h message) = Some (w', out) →
  w' = w ∧
  ∃ s, sockets w !! h = Some s ∧
    out = [Reject h (JsError ("Could not connect to " +:+ quoted (sock_url s) +:+ ": "
                              +:+ template message))].
Proof.
  intros Hi%reachable_inv Hr (En & <- & <-)%step_run.
  destruct (socket_of_event w (SockError h message) h Hi) as (s & Hs & Hw);
    [right; right; left; by eexists|done|].
  unfold ready in Hr. rewrite Hs in Hr. injection Hr as Hr.
  destruct (wired_connecting s Hw Hr) as (_ & He & _).
  assert (ws (api w) ≠ Some h) as Hne.
  { apply (not_held_unless_open w h s); [done..|congruence]. }
  rewrite (run_error_fresh _ _ s) by done. cbn.
  split; [by apply api_drop_stale|]. exists s. split; [done|].
  unfold drop_out. by rewrite bool_decide_eq_false_2.
Qed.

(** X2: a 'close' event on a socket that is still connecting does
    nothing: no effect, the instance as it was; and afterwards the
    promise of that [connect] call is never resolved nor rejected. *)
Theorem close_before_open w h w1 out1 tr w2 out2 :
  reachable w →
  ready w h = Some CONNECTING →
  step w (SockClose h) = Some (w1, out1) →
  steps w1 tr = Some (w2, out2) →
  out1 = [] ∧ api w1 = api w ∧ Forall (λ e, settles h e = false) out2.
Proof.
  intros Hi%reachable_inv Hr Hst Htr.
  pose proof (inv_step _ _ _ _ Hi Hst) as Hi1.
  apply step_run in Hst as (En & <- & <-).
  destruct (socket_of_event w (SockClose h) h Hi) as (s & Hs & Hw);
    [by right; right; right|done|].
  unfold ready in Hr. rewrite Hs in Hr. injection Hr as Hr.
  destruct (wired_connecting s Hw Hr) as (_ & _ & _ & Hc).
  rewrite (run_close_fresh _ _ s) in * by done. cbn [fst snd] in *.
  split; [done|]. split; [done|].
  apply (never_settled tr (map_socket h (with_readyState CLOSED) w) w2 out2 h
           (with_readyState CLOSED s)); try done.
  by apply lookup_map_socket.
Qed.

(** ** The callbacks of an open socket *)

(** X3: the 'open' event of a socket calls [resolve] once, dispatches
    nothing and makes the socket the one held, whatever was held before;
    the socket is then open, with the 'error' and 'close' callbacks of an
    open socket in place of [connectionErrorHandler]. *)
Theorem open_resolves w h w' out :
  reachable w →
  step w (SockOpen h) = Some (w', out) →
  settled out = [Resolve h] ∧ dispatched out = [] ∧
  isConnected w' = (Returns true, w', []) ∧ ws (api w') = Some h ∧
  ∃ s', sockets w' !! h = Some s' ∧ readyState s' = OPEN ∧ opened_wiring s'.
Proof.
  intros Hi%reachable_inv Hst.
  pose proof (inv_step _ _ _ _ Hi Hst) as Hi1.
  pose proof (step_open_owner _ _ _ _ Hi Hst) as Hh.
  apply step_run in Hst as (En & <- & <-).
  destruct (socket_of_event w (SockOpen h) h Hi) as (s & Hs & Hw); [by left|done|].
  rewrite (run_open _ _ s) in * by auto using wired_on_open. cbn [fst snd] in *.
  split; [by rewrite settled_app, settled_log_out|].
  split; [by rewrite dispatched_app, dispatched_log_out|].
  split; [by rewrite isConnected_spec, Hh|]. split; [done|].
  by apply owner_opened.
Qed.

(** X4: once the 'open' event of a socket has come, the promise of its
    [connect] call is never settled again, whatever follows. *)
Theorem settled_once w h w1 out1 tr w2 out2 :
  reachable w →
  step w (SockOpen h) = Some (w1, out1) →
  steps w1 tr = Some (w2, out2) →
  Forall (λ e, settles h e = false) out2.
Proof.
  intros Hi%reachable_inv Hst Htr.
  pose proof (inv_step _ _ _ _ Hi Hst) as Hi1.
  destruct (owner_opened w1 h Hi1 (step_open_owner _ _ _ _ Hi Hst))
    as (s1 & Hs1 & Hr1 & _).
  apply (never_settled tr w1 w2 out2 h s1); try done. congruence.
Qed.

(** X5: the 'close' event of the socket held dispatches [close] with
    [{error: false}] and nothing else, settles no promise, and leaves the
    instance disconnected and the socket closed. *)
Theorem close_after_open w h w' out :
  reachable w →
  ws (api w) = Some h →
  step w (SockClose h) = Some (w', out) →
  dispatched out = [("close", VObj {["error" := VBool false]})] ∧
  settled out = [] ∧
  isConnected w' = (Returns false, w', []) ∧
  ready w' h = Some CLOSED.
Proof.
  intros Hi%reachable_inv Hh (En & <- & <-)%step_run.
  destruct (owner_opened _ _ Hi Hh) as (s & Hs & _ & (_ & _ & _ & Hc)).
  rewrite (run_close_opened _ _ s) by done. cbn [fst snd].
  split; [apply dispatched_teardown_out|].
  split; [apply settled_teardown_out|].
  split; [apply not_connected; by apply ws_drop_owned|].
  unfold drop. rewrite bool_decide_eq_true_2 by done.
  unfold release, ready. cbn. rewrite Hh. cbn.
  by rewrite list_alter_alter_eq, list_lookup_alter_eq, Hs.
Qed.

(** X6: an 'error' or 'close' event of a socket that has opened and is
    not the one held leaves the instance as it is, and yet dispatches
    [close], with [{error: true}] for the error and [{error: false}] for
    the close. *)
Theorem stale_teardown_dispatches w h i flag w' out :
  reachable w →
  ws (api w) ≠ Some h →
  ready w h = Some OPEN ∨ ready w h = Some CLOSING →
  (∃ message, i = SockError h message) ∧ flag = true ∨ i = SockClose h ∧ flag = false →
  step w i = Some (w', out) →
  api w' = api w ∧
  dispatched out = [("close", VObj {["error" := VBool flag]})] ∧
  closed_by_client out = [].
Proof.
  intros Hi%reachable_inv Hne Hr Hev (En & <- & <-)%step_run.
  assert (∃ s, sockets w !! h = Some s ∧ wired s) as (s & Hs & Hw).
  { destruct Hev as [[[m ->] _]|[-> _]]; eapply socket_of_event; eauto. }
  assert (opened_wiring s) as (_ & He & _ & Hc).
  { apply wired_after_open; [done|]. unfold ready in Hr. rewrite Hs in Hr.
    cbn in Hr. destruct Hr as [Hr|Hr]; injection Hr; auto. }
  assert (∀ line, closed_by_client (teardown_out h w line flag) = []) as Hcl.
  { intros line. unfold teardown_out, drop_out.
    rewrite bool_decide_eq_false_2 by done. unfold log_out.
    by destruct (debug (api w)). }
  destruct Hev as [[[m ->] ->]|[-> ->]].
  - rewrite (run_error_opened _ _ s) by done. cbn [fst snd].
    split; [by rewrite api_drop_stale|].
    split; [apply dispatched_teardown_out|apply Hcl].
  - rewrite (run_close_opened _ _ s) by done. cbn [fst snd].
    split; [by rewrite api_drop_stale|].
    split; [apply dispatched_teardown_out|apply Hcl].
Qed.

(** X7: a 'message' event on an open socket never changes the world.
    When the text parses and the value read has a [type], the message is
    dispatched as [server.<type>] and as [server.*], whether or not the
    socket is the one held; when the text does not parse, or parses to
    [null], nothing is emitted. *)
Theorem message_dispatch w h data w' out :
  reachable w →
  ready w h = Some OPEN →
  step w (SockMessage h data) = Some (w', out) →
  w' = w ∧
  match JSON_parse (template data) with
  | None => out = []
  | Some message =>
      match get_prop message "type" with
      | None => out = []
      | Some type =>
          dispatched out = [("server." +:+ template type, message);
                            ("server.*", message)]
      end
  end.
Proof.
  intros Hi%reachable_inv Hr (En & <- & <-)%step_run.
  destruct (socket_of_event w (SockMessage h data) h Hi) as (s & Hs & Hw);
    [right; left; by eexists|done|].
  rewrite (run_message_spec _ _ s) by auto using wired_on_message.
  destruct (JSON_parse _) as [m|]; [|done].
  destruct (get_prop m "type") as [t|]; [|done]. cbn.
  split; [done|]. by rewrite dispatched_app, dispatched_log_out.
Qed.


(** ** Calls *)

Lemma set_owner_same w : set_owner (ws (api w)) w = w.
Proof. by destruct w as [[] ? ? ?]. Qed.

Lemma disconnect_idle_spec w arg :
  ws (api w) = None →
  disconnect arg w =
    (Returns (match arg with None => VBool true | Some _ => VUndefined end), w, []).
Proof.
  intros Hn. rewrite disconnect_spec, Hn. destruct arg as [h|]; cbn; [done|].
  unfold release, closes. rewrite Hn. by rewrite <- Hn, set_owner_same.
Qed.

(** X8: [isConnected], [log], [receive], [send] and the 'message'
    callback never change the instance or a socket, whatever they
    return or throw. *)
Theorem observers_change_nothing w i w' out :
  reachable w →
  observes i = true →
  step w i = Some (w', out) →
  w' = w.
Proof.
  intros Hi%reachable_inv Hobs (En & <- & _)%step_run. destruct i; try done.
  - cbn [run]. by rewrite answer_world, log_spec.
  - cbn [run]. by rewrite answer_world, receive_spec.
  - cbn [run]. by rewrite answer_world, send_world.
  - destruct (socket_of_event w (SockMessage h data) h Hi) as (s & Hs & Hw);
      [right; left; by eexists|done|].
    by rewrite (run_message_world _ _ s) by auto using wired_on_message.
Qed.

Lemma steps_cons w i tr w1 out1 w2 out2 :
  step w i = Some (w1, out1) → steps w1 tr = Some (w2, out2) →
  steps w (i :: tr) = Some (w2, (out1 ++ out2)%list).
Proof. intros H1 H2. cbn. by rewrite H1, H2. Qed.

Lemma written_app o1 o2 : written (o1 ++ o2) = (written o1 ++ written o2)%list.
Proof. apply omap_app. Qed.

Lemma written_cons e out :
  written (e :: out) =
    (match e with WsSend h text => [(h, text)] | _ => [] end ++ written out)%list.
Proof. by destruct e. Qed.

Lemma written_log_out w args : written (log_out w args) = [].
Proof. unfold log_out. by destruct (debug (api w)). Qed.

Lemma step_open_fresh w h target :
  sockets w !! h = Some (fresh_socket target) →
  step w (SockOpen h) =
    Some (set_owner (Some h) (map_socket h (rewire ∘ with_readyState OPEN) w),
          (log_out w [VStr ("Connected to " +:+ quoted target)] ++ [Resolve h])%list).
Proof.
  intros Hs. apply step_run. split; [|by rewrite (run_open _ _ _ Hs)].
  cbn. unfold ready. by rewrite Hs.
Qed.

Lemma step_send_held w h eventName data rnd :
  ws (api w) = Some h →
  typeof (js_or data (VObj ∅)) = "object" →
  step w (CallSend eventName data rnd false) =
    Some (w, (send eventName data rnd false w).2).
Proof.
  intros Hh Ht. apply step_run. split; [done|]. cbn [run].
  by rewrite answer_world, answer_out, send_world.
Qed.

(** X9: the whole way. On an instance that holds no socket and has no
    call suspended, [connect()] (and under Node.js the end of the
    import), the 'open' event of the new socket and [send] can follow
    each other; the socket is created with [fullUrl] as its target, the
    instance holds it, and exactly one text is written, to that socket:
    the envelope of the [send]. *)
Theorem connect_open_send w eventName data rnd :
  ws (api w) = None →
  importing w = [] →
  typeof (js_or data (VObj ∅)) = "object" →
  ∃ w' out,
    steps w (CallConnect :: (if document w then [] else [ImportDone]) ++
             [SockOpen (length (sockets w)); CallSend eventName data rnd false])
      = Some (w', out) ∧
    ws (api w') = Some (length (sockets w)) ∧
    WsNew (length (sockets w)) (fullUrl_of w) ∈ out ∧
    written out =
      [(length (sockets w),
        JSON_stringify (envelope (generateId "evt_" rnd) eventName
                          (js_or data (VObj ∅))))].
Proof.
  intros Hn Him Ht. set (h := length (sockets w)).
  set (target := fullUrl_of w).
  assert (step w CallConnect =
            Some (if document w
                  then set_sockets (sockets w ++ [fresh_socket target]) w
                  else set_importing [target] w,
                  if document w then [WsNew h target] else [])) as H1.
  { apply step_run. split; [done|]. cbn [run].
    rewrite answer_world, answer_out, connect_spec by done. rewrite Him.
    by destruct (document w). }
  assert (∀ w1, sockets w1 = (sockets w ++ [fresh_socket target])%list →
                ws (api w1) = None →
     ∃ w' out,
       steps w1 [SockOpen h; CallSend eventName data rnd false] = Some (w', out) ∧
       ws (api w') = Some h ∧
       written out =
         [(h, JSON_stringify (envelope (generateId "evt_" rnd) eventName
                                (js_or data (VObj ∅))))]) as Hrest.
  { intros w1 Hso Hn1.
    assert (sockets w1 !! h = Some (fresh_socket target)) as Hs.
    { rewrite Hso. apply list_lookup_middle. done. }
    eexists _, _. split.
    - eapply steps_cons; [by apply step_open_fresh|].
      eapply steps_cons; [by apply (step_send_held _ h)|]. reflexivity.
    - split; [done|]. rewrite (send_spec _ h) by done. cbn.
      by rewrite !written_app, !written_cons, !written_app, !written_log_out. }
  destruct (document w) eqn:Hd.
  - destruct (Hrest (set_sockets (sockets w ++ [fresh_socket target]) w))
      as (w' & out & Hst & Hh & Hwr); [done..|].
    eexists _, _. split; [eapply steps_cons; [exact H1|exact Hst]|].
    split; [done|]. split; [|done]. apply elem_of_cons. by left.
  - assert (step (set_importing [target] w) ImportDone =
              Some (set_sockets (sockets w ++ [fresh_socket target])
                      (set_importing [] (set_importing [target] w)),
                    [WsNew h target])) as H2.
    { apply step_run. split; [done|]. by rewrite run_import_spec. }
    destruct (Hrest (set_sockets (sockets w ++ [fresh_socket target])
                       (set_importing [] (set_importing [target] w))))
      as (w' & out & Hst & Hh & Hwr); [done..|].
    eexists _, _. split.
    { eapply steps_cons; [exact H1|]. eapply steps_cons; [exact H2|exact Hst]. }
    split; [done|]. split; [|done]. apply elem_of_cons. by left.
Qed.

(** X10: [disconnect()] does not reach a connection that is still being
    made. On an instance that holds no socket it closes nothing, and the
    'open' event of the connecting socket then resolves its promise and
    makes the instance hold that socket. *)
Theorem disconnect_keeps_pending w h :
  reachable w →
  ws (api w) = None →
  ready w h = Some CONNECTING →
  ∃ w' out,
    steps w [CallDisconnect None; SockOpen h] = Some (w', out) ∧
    closed_by_client out = [] ∧
    settled out = [Resolve h] ∧
    ws (api w') = Some h.
Proof.
  intros Hi%reachable_inv Hn Hr.
  unfold ready in Hr. destruct (sockets w !! h) as [s|] eqn:Hs; [|done].
  injection Hr as Hr.
  pose proof (wired_on_open s (proj1 Hi _ _ Hs)) as Hop.
  assert (step w (CallDisconnect None) = Some (w, [])) as H1.
  { apply step_run. split; [done|]. cbn [run].
    by rewrite answer_world, answer_out, disconnect_idle_spec. }
  assert (step w (SockOpen h) =
            Some (set_owner (Some h) (map_socket h (rewire ∘ with_readyState OPEN) w),
                  (log_out w [VStr ("Connected to " +:+ quoted (sock_url s))]
                   ++ [Resolve h])%list)) as H2.
  { apply step_run. split; [|by rewrite (run_open _ _ s)].
    apply bool_decide_eq_true_2. unfold ready. rewrite Hs. cbn. by rewrite Hr. }
  eexists _, _. split.
  { eapply steps_cons; [exact H1|]. eapply steps_cons; [exact H2|reflexivity]. }
  cbn. rewrite app_nil_r. unfold log_out.
  by destruct (debug (api w)).
Qed.

Lemma closed_by_client_app o1 o2 :
  closed_by_client (o1 ++ o2) = (closed_by_client o1 ++ closed_by_client o2)%list.
Proof. apply omap_app. Qed.

Lemma closed_by_client_teardown_out h w line flag :
  closed_by_client (teardown_out h w line flag) =
    if bool_decide (ws (api w) = Some h) then [h] else [].
Proof.
  unfold teardown_out, drop_out, log_out.
  by case_bool_decide; destruct (debug (api w)).
Qed.

(** X11: a failure of the socket held is heard twice. Its 'error'
    event and the 'close' event that follows can come one after the
    other, and they dispatch [close] with [{error: true}] and then [close]
    with [{error: false}]; the socket is told to close once, and the
    instance ends up holding nothing. *)
Theorem error_then_close w h message :
  reachable w →
  ws (api w) = Some h →
  ∃ w' out,
    steps w [SockError h message; SockClose h] = Some (w', out) ∧
    dispatched out = [("close", VObj {["error" := VBool true]});
                      ("close", VObj {["error" := VBool false]})] ∧
    closed_by_client out = [h] ∧
    ws (api w') = None.
Proof.
  intros Hi%reachable_inv Hh.
  destruct (owner_opened _ _ Hi Hh) as (s & Hs & Hr & (_ & He & _ & Hc)).
  assert (drop h w = release w) as Hdrop.
  { unfold drop. by rewrite bool_decide_eq_true_2. }
  assert (sockets (release w) !! h = Some (with_readyState CLOSING s)) as Hs1.
  { unfold release. rewrite Hh. cbn. rewrite list_lookup_alter_eq, Hs. cbn.
    unfold closing. by rewrite Hr. }
  assert (step w (SockError h message) =
            Some (release w,
                  teardown_out h w ("Error, disconnected from " +:+ quoted (sock_url s)
                                    +:+ ": " +:+ template message) true)) as H1.
  { apply step_run. split; [|by rewrite (run_error_opened _ _ s), Hdrop].
    cbn. unfold ready. rewrite Hs. cbn. by rewrite Hr. }
  assert (step (release w) (SockClose h) =
            Some (drop h (map_socket h (with_readyState CLOSED) (release w)),
                  teardown_out h (release w)
                    ("Disconnected from " +:+ quoted (sock_url s)) false)) as H2.
  { apply step_run. split; [|by rewrite (run_close_opened _ _ _ Hs1)].
    cbn. unfold ready. by rewrite Hs1. }
  eexists _, _. split; [|split; [|split]].
  - eapply steps_cons; [exact H1|]. eapply steps_cons; [exact H2|reflexivity].
  - rewrite app_nil_r, dispatched_app. by rewrite !dispatched_teardown_out.
  - rewrite app_nil_r, closed_by_client_app, !closed_by_client_teardown_out.
    by rewrite bool_decide_eq_true_2.
  - cbn. unfold drop. by case_bool_decide.
Qed.

(** ** What never happens *)

Lemma changes_debug w w' : changes w w' → debug (api w') = debug (api w).
Proof.
  intros [|u rest _| | |h s _ _ _|h]; try done.
  - unfold release. by destruct (ws (api w)).
  - unfold drop. case_bool_decide; [|done]. cbn. unfold release. cbn.
    by destruct (ws (api w)).
Qed.

Lemma console_app o1 o2 : console (o1 ++ o2) = (console o1 ++ console o2)%list.
Proof. apply omap_app. Qed.

Lemma emitted_console w i out :
  Forall (emitted_by w i) out → debug (api w) = false → console out = [].
Proof.
  intros Hf Hd. induction Hf as [|e out He _ IH]; [done|].
  destruct e; try done. cbn in He. congruence.
Qed.

Lemma steps_console tr : ∀ w w' out,
  inv w → debug (api w) = false → steps w tr = Some (w', out) →
  console out = [] ∧ debug (api w') = false.
Proof.
  induction tr as [|i tr IH]; intros w w' out Hi Hd; cbn.
  - by intros [= <- <-].
  - destruct (step w i) as [[w1 o1]|] eqn:E1; [|done].
    destruct (steps w1 tr) as [[w2 o2]|] eqn:E2; [|done].
    intros [= <- <-].
    destruct (IH w1 w2 o2) as [Hc Hd2]; [by eapply inv_step| |done|].
    { rewrite (changes_debug w w1); [done|by eapply step_changes]. }
    split; [|done]. rewrite console_app, Hc, app_nil_r.
    apply (emitted_console w i); [by eapply step_effects|done].
Qed.

(** X12: an instance constructed without [debug] never writes to the
    console, whatever is called and whatever its sockets do; no method
    changes [debug]. *)
Theorem silent_without_debug dbg browser tr w out :
  truthy dbg = false →
  steps (initial dbg browser) tr = Some (w, out) →
  console out = [] ∧ debug (api w) = false.
Proof.
  intros Hd Htr. by apply (steps_console tr (initial dbg browser)); [apply inv_initial|..].
Qed.

(** X13: the instance only ever writes to the socket it holds, which
    is open, and only ever tells the socket it holds to close. *)
Theorem only_held_socket_used w i w' out :
  reachable w →
  step w i = Some (w', out) →
  (∀ h text, WsSend h text ∈ out → ws (api w) = Some h ∧ ready w h = Some OPEN) ∧
  (∀ h, WsClose h ∈ out → ws (api w) = Some h).
Proof.
  intros Hi%reachable_inv Hst.
  pose proof (step_effects _ _ _ _ Hi Hst) as Hf.
  rewrite Forall_forall in Hf. split.
  - intros h text [Hh _]%Hf. split; [done|]. by apply (proj2 Hi).
  - by intros h [Hh _]%Hf.
Qed.

(** ** The target of the sockets *)

Lemma fullUrl_of_fields w : targets_fullUrl w → fullUrl_of w = fullUrl.
Proof. intros (Hu & Hd & _). unfold fullUrl_of, fullUrl. by rewrite Hu, Hd. Qed.

Lemma targets_initial dbg browser : targets_fullUrl (initial dbg browser).
Proof. repeat split; constructor. Qed.

Lemma targets_set_owner o w : targets_fullUrl w → targets_fullUrl (set_owner o w).
Proof. by intros (? & ? & ? & ? & ?). Qed.

Lemma targets_map_socket h f w :
  (∀ s, sock_url (f s) = sock_url s) →
  targets_fullUrl w → targets_fullUrl (map_socket h f w).
Proof.
  intros Hf (? & ? & ? & ? & Hs). repeat split; try done. cbn.
  apply Forall_alter; [done|]. intros s _ <-. apply Hf.
Qed.

Lemma sock_url_closing s : sock_url (closing s) = sock_url s.
Proof. unfold closing. by destruct (readyState s). Qed.

Lemma targets_release w : targets_fullUrl w → targets_fullUrl (release w).
Proof.
  intros H. unfold release. apply targets_set_owner.
  destruct (ws (api w)); [|done]. by apply targets_map_socket; [apply sock_url_closing|].
Qed.

Lemma changes_targets w w' : targets_fullUrl w → changes w w' → targets_fullUrl w'.
Proof.
  intros Ht Hc. pose proof (fullUrl_of_fields w Ht) as Hfull.
  destruct Hc as [|u rest Hu| | |h s _ _ _|h].
  - done.
  - destruct Ht as (? & ? & ? & Him & Hs). repeat split; try done; cbn.
    + destruct Hu as [[_ ->]|Hu]; [done|]. rewrite Hu in Him.
      by apply Forall_cons in Him as [_ ?].
    + apply Forall_app. split; [done|]. constructor; [|constructor]. cbn.
      destruct Hu as [[-> _]|Hu]; [done|]. rewrite Hu in Him.
      by apply Forall_cons in Him as [? _].
  - destruct Ht as (? & ? & ? & Him & Hs). repeat split; try done; cbn.
    apply Forall_app. split; [done|]. by constructor.
  - by apply targets_release.
  - by apply targets_set_owner, targets_map_socket.
  - unfold drop. case_bool_decide.
    + by apply targets_release, targets_map_socket.
    + by apply targets_map_socket.
Qed.

Lemma steps_targets tr : ∀ w w' out,
  inv w → targets_fullUrl w → steps w tr = Some (w', out) → targets_fullUrl w'.
Proof.
  induction tr as [|i tr IH]; intros w w' out Hi Ht; cbn.
  - by intros [= <- _].
  - destruct (step w i) as [[w1 o1]|] eqn:E1; [|done].
    destruct (steps w1 tr) as [[w2 o2]|] eqn:E2; [|done].
    intros [= <- _]. apply (IH w1 w2 o2); [by eapply inv_step| |done].
    apply (changes_targets w); [done|by eapply step_changes].
Qed.

(** X14: no method assigns [url], [deploymentName] or [resourceName],
    so every socket an instance ever creates has the same target: the
    url of the constructor, the api version, the deployment and the key. *)
Theorem sockets_target_fullUrl dbg browser tr w out h s :
  steps (initial dbg browser) tr = Some (w, out) →
  sockets w !! h = Some s →
  sock_url s = fullUrl ∧
  url (api w) = url (constructor dbg) ∧
  deploymentName (api w) = deploymentName (constructor dbg) ∧
  resourceName (api w) = resourceName (constructor dbg).
Proof.
  intros Htr Hs.
  destruct (steps_targets tr (initial dbg browser) w out) as (Hu & Hd & Hr & _ & Hso);
    [apply inv_initial|apply targets_initial|done|].
  split; [|done]. rewrite Forall_forall in Hso. apply Hso.
  by apply list_elem_of_lookup_2 with h.
Qed.

End life_cycle.

(** ** The sentences at concrete inputs *)

Lemma reachable_fresh_world :
  reachable (hst:=sample_host) (cfg:=sample_settings) fresh_world.
Proof. by exists VUndefined, true, [], []. Qed.

Lemma reachable_pending_world :
  reachable (hst:=sample_host) (cfg:=sample_settings) pending_world.
Proof. by exists VUndefined, true, [CallConnect], [WsNew 0 sample_url]. Qed.

Lemma reachable_connected_world :
  reachable (hst:=sample_host) (cfg:=sample_settings) connected_world.
Proof.
  by exists VUndefined, true, [CallConnect; SockOpen 0], [WsNew 0 sample_url; Resolve 0].
Defined.

Lemma reachable_raced_world :
  reachable (hst:=sample_host) (cfg:=sample_settings) raced_world.
Proof.
  by exists VUndefined, true, [CallConnect; CallConnect; SockOpen 1],
    [WsNew 0 sample_url; WsNew 1 sample_url; Resolve 1].
Defined.

Lemma reachable_reconnected_world :
  reachable (hst:=sample_host) (cfg:=sample_settings) reconnected_world.
Proof.
  exists VUndefined, true,
    [CallConnect; SockOpen 0; CallDisconnect None; CallConnect; SockOpen 1],
    [WsNew 0 sample_url; Resolve 0; WsClose 0; WsNew 1 sample_url; Resolve 1].
  reflexivity.
Defined.

Lemma connect_after_open_fails_witness :
  reachable (hst:=sample_host) (cfg:=sample_settings) pending_world ∧
  step (hst:=sample_host) (cfg:=sample_settings) pending_world (SockOpen 0)
    = Some (connected_world, [Resolve 0]) ∧
  connect (cfg:=sample_settings) connected_world
    = (Throws AlreadyConnected, connected_world, []).
Proof.
  split; [exact reachable_pending_world|]. split; [reflexivity|].
  eapply (connect_after_open_fails (hst:=sample_host) (cfg:=sample_settings)
            pending_world 0 connected_world [Resolve 0]
            [CallSend (VStr "ping") VUndefined "abc" false; SockMessage 0 (VStr "pong")]).
  - exact reachable_pending_world.
  - reflexivity.
  - by repeat constructor.
  - reflexivity.
Defined.

(** C1, as it is written, fails: a second [connect()] issued before the
    first has reported open is accepted and creates a second socket. *)
Lemma second_connect_before_open :
  ¬ second_connect_always_fails (hst:=sample_host) (cfg:=sample_settings).
Proof.
  intros H.
  specialize (H fresh_world (Some 0) pending_world [WsNew 0 sample_url] []
                pending_world [] reachable_fresh_world eq_refl ltac:(constructor) eq_refl).
  rewrite connect_spec in H by done. discriminate H.
Qed.

Lemma send_requires_connection_witness :
  send (hst:=sample_host) (VStr "ping") (VObj {["n" := VNum 1]}) "abc" false fresh_world
    = (Throws NotConnected, fresh_world, []) ∧
  send (hst:=sample_host) (VStr "ping") VUndefined "abc" false failed_world
    = (Throws NotConnected, failed_world, []).
Proof.
  split; apply (send_requires_connection (hst:=sample_host)); reflexivity.
Defined.

Lemma send_envelope_witness :
  ∃ ev,
    (send (hst:=sample_host) (VStr "ping") (VObj {["n" := VNum 1]}) "abc" false
       connected_world).2 =
      [Dispatch "client.ping" ev; Dispatch "client.*" ev; WsSend 0 "{...}"] ∧
    get_prop ev "n" = Some (VNum 1) ∧
    get_prop ev "event_id" = Some (VStr "evt_abc") ∧
    get_prop ev "type" = Some (VStr "ping").
Proof.
  destruct (send_envelope (hst:=sample_host) connected_world 0 (VStr "ping")
              (VObj {["n" := VNum 1]}) "abc" false eq_refl eq_refl)
    as (ev & Hout & _ & Hgiven & Hid & Htype).
  exists ev. split; [exact Hout|]. split; [|split].
  - apply Hgiven. reflexivity.
  - apply Hid. reflexivity.
  - apply Htype. reflexivity.
Defined.

(** C3, as it is written, fails: a [type] property of the data replaces
    the event name in the envelope. *)
Lemma send_type_overridden : ¬ send_builds_claimed_envelope (hst:=sample_host).
Proof.
  intros H.
  destruct (H connected_world 0 (VStr "ping") {["type" := VStr "other"]} "abc" eq_refl)
    as (ev & Hout & _ & Htype & _).
  rewrite (send_spec _ 0) in Hout by done. cbn in Hout.
  injection Hout as <- _.
  rewrite (lookup_envelope_given _ _ _ "type" (VStr "other")) in Htype; [done|].
  apply lookup_singleton_eq.
Qed.

Lemma send_dispatches_before_write_witness :
  let event := envelope "evt_abc" (VStr "ping") (VObj {["n" := VNum 1]}) in
  send (hst:=sample_host) (VStr "ping") (VObj {["n" := VNum 1]}) "abc" true connected_world
    = (Throws SocketError, connected_world,
       [Dispatch "client.ping" event; Dispatch "client.*" event]) ∧
  dispatched (send (hst:=sample_host) (VStr "ping") (VObj {["n" := VNum 1]}) "abc" true
                connected_world).2
    = [("client.ping", event); ("client.*", event)].
Proof.
  exact (send_dispatches_before_write (hst:=sample_host) connected_world 0 (VStr "ping")
           (VObj {["n" := VNum 1]}) "abc" true eq_refl eq_refl).
Defined.

Lemma send_payload_check_witness :
  send (hst:=sample_host) (VStr "ping") (VNum 7) "abc" false connected_world
    = (Throws InvalidPayload, connected_world, []) ∧
  (send (hst:=sample_host) (VStr "ping") (VArr [VNum 7]) "abc" false connected_world).1.1
    ≠ Throws InvalidPayload ∧
  send (hst:=sample_host) (VStr "ping") VNull "abc" false connected_world
    = send (hst:=sample_host) (VStr "ping") (VObj ∅) "abc" false connected_world.
Proof.
  destruct (send_payload_check (hst:=sample_host) connected_world 0 (VStr "ping")
              (VNum 7) "abc" false eq_refl) as (Hbad & _ & _).
  destruct (send_payload_check (hst:=sample_host) connected_world 0 (VStr "ping")
              (VArr [VNum 7]) "abc" false eq_refl) as (_ & Hobject & _).
  destruct (send_payload_check (hst:=sample_host) connected_world 0 (VStr "ping")
              VNull "abc" false eq_refl) as (_ & _ & Habsent).
  split; [apply Hbad; by split|]. split.
  - apply Hobject. right. by eexists.
  - apply Habsent. by right.
Defined.

(** C5, as it is written, fails: [false] is not a mapping, and [send]
    takes it for the empty object and goes on. *)
Lemma send_accepts_false : ¬ invalid_payload_iff_not_mapping (hst:=sample_host).
Proof.
  intros H.
  destruct (H connected_world 0 (VStr "ping") (VBool false) "abc" false eq_refl)
    as [_ Hthrows].
  specialize (Hthrows (conj eq_refl (λ E, eq_ind (VBool false)
    (λ v, match v with VBool _ => True | _ => False end) I _ E))).
  rewrite (send_spec _ 0) in Hthrows by done. discriminate Hthrows.
Qed.

Lemma error_after_open_witness :
  reachable (hst:=sample_host) (cfg:=sample_settings) connected_world ∧
  step (hst:=sample_host) (cfg:=sample_settings) connected_world (SockError 0 (VStr "boom"))
    = Some (failed_world,
            [WsClose 0; Dispatch "close" (VObj {["error" := VBool true]})]) ∧
  send (hst:=sample_host) (VStr "ping") VUndefined "abc" false failed_world
    = (Throws NotConnected, failed_world, []).
Proof.
  split; [exact reachable_connected_world|]. split; [reflexivity|].
  destruct (error_after_open (hst:=sample_host) (cfg:=sample_settings) connected_world 0
              (VStr "boom") failed_world
              [WsClose 0; Dispatch "close" (VObj {["error" := VBool true]})]
              reachable_connected_world eq_refl eq_refl) as (_ & _ & _ & Hsend).
  apply (Hsend [] failed_world []); [constructor|reflexivity].
Defined.

Lemma stale_teardown_ignored_witness :
  reachable (hst:=sample_host) (cfg:=sample_settings) reconnected_world ∧
  ready reconnected_world 1 = Some OPEN ∧
  step (hst:=sample_host) (cfg:=sample_settings) reconnected_world (SockClose 0)
    = Some (stale_closed_world, [Dispatch "close" (VObj {["error" := VBool false]})]) ∧
  api stale_closed_world = api reconnected_world ∧
  step (hst:=sample_host) (cfg:=sample_settings) raced_world (SockError 0 (VStr "refused"))
    = Some (raced_world,
            [Reject 0 (JsError ("Could not connect to " +:+ quoted sample_url
                                +:+ ": refused"))]) ∧
  api raced_world = api raced_world.
Proof.
  destruct (stale_teardown_ignored (hst:=sample_host) (cfg:=sample_settings)
              reconnected_world reachable_reconnected_world) as (Hlive & Hstale).
  destruct (stale_teardown_ignored (hst:=sample_host) (cfg:=sample_settings)
              raced_world reachable_raced_world) as (_ & Hraced).
  split; [exact reachable_reconnected_world|].
  split; [by apply Hlive|].
  split; [reflexivity|].
  split.
  { apply (Hstale 0 (SockClose 0) stale_closed_world
             [Dispatch "close" (VObj {["error" := VBool false]})]);
      [discriminate|by right|reflexivity]. }
  split; [reflexivity|].
  apply (Hraced 0 (SockError 0 (VStr "refused")) raced_world
           [Reject 0 (JsError ("Could not connect to " +:+ quoted sample_url
                               +:+ ": refused"))]);
    [discriminate|left; by eexists|reflexivity].
Defined.

(** C9, as it is written, fails: the 'open' event of the older socket
    takes the instance over from the socket it holds. *)
Lemma late_open_takes_over :
  ¬ stale_callbacks_ignored (hst:=sample_host) (cfg:=sample_settings).
Proof.
  intros H.
  specialize (H raced_world 0 1 (SockOpen 0) stolen_world [Resolve 0]
                reachable_raced_world eq_refl (le_n 1) (or_introl eq_refl) eq_refl).
  discriminate H.
Qed.

Lemma two_files_agree_witness :
  same_result eq
    (run (hst:=sample_host) (cfg:=lib_api "k1") CallConnect
       (initial (cfg:=lib_api "k1") VUndefined true)).1.1
    (run (hst:=sample_host) (cfg:=part_000 "k2") CallConnect
       (initial (cfg:=part_000 "k2") VUndefined true)).1.1 ∧
  Forall2 same_effect
    (run (hst:=sample_host) (cfg:=lib_api "k1") CallConnect
       (initial (cfg:=lib_api "k1") VUndefined true)).2
    (run (hst:=sample_host) (cfg:=part_000 "k2") CallConnect
       (initial (cfg:=part_000 "k2") VUndefined true)).2.
Proof.
  destruct (two_files_agree (hst:=sample_host) "k1" "k2") as [Hinit Hrun].
  destruct (Hrun CallConnect _ _ (Hinit VUndefined true)) as (_ & Hres & _ & Hout).
  by split.
Defined.

(** ** The further properties at concrete inputs *)

Lemma error_before_open_witness :
  ready pending_world 0 = Some CONNECTING ∧
  step (hst:=sample_host) (cfg:=sample_settings) pending_world (SockError 0 (VStr "refused"))
    = Some (pending_world,
            [Reject 0 (JsError ("Could not connect to " +:+ quoted sample_url
                                +:+ ": refused"))]) ∧
  pending_world = pending_world.
Proof.
  split; [reflexivity|]. split; [reflexivity|].
  exact (proj1 (error_before_open (hst:=sample_host) (cfg:=sample_settings)
                  pending_world 0 (VStr "refused") pending_world _
                  reachable_pending_world eq_refl eq_refl)).
Defined.

Lemma close_after_open_witness :
  step (hst:=sample_host) (cfg:=sample_settings) connected_world (SockClose 0)
    = Some (closed_world,
            [WsClose 0; Dispatch "close" (VObj {["error" := VBool false]})]) ∧
  dispatched [WsClose 0; Dispatch "close" (VObj {["error" := VBool false]})]
    = [("close", VObj {["error" := VBool false]})] ∧
  ready closed_world 0 = Some CLOSED.
Proof.
  split; [reflexivity|].
  destruct (close_after_open (hst:=sample_host) (cfg:=sample_settings) connected_world 0
              closed_world [WsClose 0; Dispatch "close" (VObj {["error" := VBool false]})]
              reachable_connected_world eq_refl eq_refl) as (Hd & _ & _ & Hr).
  by split.
Defined.

Lemma close_before_open_witness :
  step (hst:=sample_host) (cfg:=sample_settings) pending_world (SockClose 0)
    = Some (closed_early_world, []) ∧
  Forall (λ e, settles 0 e = false) [WsNew 1 sample_url].
Proof.
  split; [reflexivity|].
  eapply (close_before_open (hst:=sample_host) (cfg:=sample_settings) pending_world 0
            closed_early_world [] [CallConnect]).
  - exact reachable_pending_world.
  - reflexivity.
  - reflexivity.
  - reflexivity.
Defined.

Lemma open_resolves_witness :
  step (hst:=sample_host) (cfg:=sample_settings) pending_world (SockOpen 0)
    = Some (connected_world, [Resolve 0]) ∧
  settled [Resolve 0] = [Resolve 0] ∧
  ws (api connected_world) = Some 0.
Proof.
  split; [reflexivity|].
  destruct (open_resolves (hst:=sample_host) (cfg:=sample_settings) pending_world 0
              connected_world [Resolve 0] reachable_pending_world eq_refl)
    as (Hs & _ & _ & Hh & _).
  by split.
Defined.

Lemma settled_once_witness :
  steps (hst:=sample_host) (cfg:=sample_settings) connected_world
    [SockError 0 (VStr "boom"); SockClose 0]
    = Some (closed_world,
            [WsClose 0; Dispatch "close" (VObj {["error" := VBool true]});
             Dispatch "close" (VObj {["error" := VBool false]})]) ∧
  Forall (λ e, settles 0 e = false)
    [WsClose 0; Dispatch "close" (VObj {["error" := VBool true]});
     Dispatch "close" (VObj {["error" := VBool false]})].
Proof.
  split; [reflexivity|].
  eapply (settled_once (hst:=sample_host) (cfg:=sample_settings) pending_world 0
            connected_world [Resolve 0] [SockError 0 (VStr "boom"); SockClose 0]).
  - exact reachable_pending_world.
  - reflexivity.
  - reflexivity.
Defined.

Lemma stale_teardown_dispatches_witness :
  step (hst:=sample_host) (cfg:=sample_settings) reconnected_world (SockClose 0)
    = Some (stale_closed_world, [Dispatch "close" (VObj {["error" := VBool false]})]) ∧
  api stale_closed_world = api reconnected_world.
Proof.
  split; [reflexivity|].
  refine (proj1 (stale_teardown_dispatches (hst:=sample_host) (cfg:=sample_settings)
                   reconnected_world 0 (SockClose 0) false stale_closed_world
                   [Dispatch "close" (VObj {["error" := VBool false]})]
                   reachable_reconnected_world _ _ _ eq_refl)).
  - discriminate.
  - by right.
  - by right.
Defined.

Lemma message_dispatch_witness :
  step (hst:=sample_host) (cfg:=sample_settings) connected_world (SockMessage 0 (VStr "pong"))
    = Some (connected_world,
            [Dispatch "server.pong" (VObj {["type" := VStr "pong"]});
             Dispatch "server.*" (VObj {["type" := VStr "pong"]})]) ∧
  dispatched [Dispatch "server.pong" (VObj {["type" := VStr "pong"]});
              Dispatch "server.*" (VObj {["type" := VStr "pong"]})]
    = [("server.pong", VObj {["type" := VStr "pong"]});
       ("server.*", VObj {["type" := VStr "pong"]})].
Proof.
  split; [reflexivity|].
  exact (proj2 (message_dispatch (hst:=sample_host) (cfg:=sample_settings) connected_world 0
                  (VStr "pong") connected_world _ reachable_connected_world
                  eq_refl eq_refl)).
Defined.

Lemma connect_open_send_witness :
  (∃ w' out,
     steps (hst:=sample_host) (cfg:=sample_settings) fresh_world
       [CallConnect; SockOpen 0; CallSend (VStr "ping") VUndefined "abc" false]
       = Some (w', out) ∧
     ws (api w') = Some 0 ∧
     WsNew 0 sample_url ∈ out ∧
     written out = [(0, "{...}")]) ∧
  (∃ w' out,
     steps (hst:=sample_host) (cfg:=sample_settings) node_world
       [CallConnect; ImportDone; SockOpen 0; CallSend (VStr "ping") VUndefined "abc" false]
       = Some (w', out) ∧
     ws (api w') = Some 0 ∧
     WsNew 0 sample_url ∈ out ∧
     written out = [(0, "{...}")]).
Proof.
  split.
  - exact (connect_open_send (hst:=sample_host) (cfg:=sample_settings) fresh_world
             (VStr "ping") VUndefined "abc" eq_refl eq_refl eq_refl).
  - exact (connect_open_send (hst:=sample_host) (cfg:=sample_settings) node_world
             (VStr "ping") VUndefined "abc" eq_refl eq_refl eq_refl).
Defined.

Lemma error_then_close_witness :
  ∃ w' out,
    steps (hst:=sample_host) (cfg:=sample_settings) connected_world
      [SockError 0 (VStr "boom"); SockClose 0] = Some (w', out) ∧
    dispatched out = [("close", VObj {["error" := VBool true]});
                      ("close", VObj {["error" := VBool false]})] ∧
    closed_by_client out = [0] ∧
    ws (api w') = None.
Proof.
  exact (error_then_close (hst:=sample_host) (cfg:=sample_settings) connected_world 0
           (VStr "boom") reachable_connected_world eq_refl).
Defined.

Lemma silent_without_debug_witness :
  steps (hst:=sample_host) (cfg:=sample_settings) (initial (cfg:=sample_settings) VUndefined true)
    [CallConnect; SockOpen 0; CallLog [VStr "hello"]]
    = Some (connected_world, [WsNew 0 sample_url; Resolve 0]) ∧
  console [WsNew 0 sample_url; Resolve 0] = [] ∧
  debug (api connected_world) = false.
Proof.
  split; [reflexivity|].
  exact (silent_without_debug (hst:=sample_host) (cfg:=sample_settings) VUndefined true
           [CallConnect; SockOpen 0; CallLog [VStr "hello"]] connected_world
           [WsNew 0 sample_url; Resolve 0] eq_refl eq_refl).
Defined.

Lemma observers_change_nothing_witness :
  step (hst:=sample_host) (cfg:=sample_settings) connected_world
    (CallSend (VStr "ping") VUndefined "abc" true)
    = Some (connected_world,
            [Dispatch "client.ping" (envelope "evt_abc" (VStr "ping") (VObj ∅));
             Dispatch "client.*" (envelope "evt_abc" (VStr "ping") (VObj ∅))]) ∧
  connected_world = connected_world.
Proof.
  split; [reflexivity|].
  exact (observers_change_nothing (hst:=sample_host) (cfg:=sample_settings)
           connected_world (CallSend (VStr "ping") VUndefined "abc" true) connected_world _
           reachable_connected_world eq_refl eq_refl).
Defined.

Lemma disconnect_keeps_pending_witness :
  ∃ w' out,
    steps (hst:=sample_host) (cfg:=sample_settings) pending_world
      [CallDisconnect None; SockOpen 0] = Some (w', out) ∧
    closed_by_client out = [] ∧
    settled out = [Resolve 0] ∧
    ws (api w') = Some 0.
Proof.
  exact (disconnect_keeps_pending (hst:=sample_host) (cfg:=sample_settings) pending_world 0
           reachable_pending_world eq_refl eq_refl).
Defined.

Lemma only_held_socket_used_witness :
  step (hst:=sample_host) (cfg:=sample_settings) connected_world
    (CallSend (VStr "ping") VUndefined "abc" false)
    = Some (connected_world,
            [Dispatch "client.ping" (envelope "evt_abc" (VStr "ping") (VObj ∅));
             Dispatch "client.*" (envelope "evt_abc" (VStr "ping") (VObj ∅));
             WsSend 0 "{...}"]) ∧
  ws (api connected_world) = Some 0 ∧ ready connected_world 0 = Some OPEN.
Proof.
  split; [reflexivity|].
  destruct (only_held_socket_used (hst:=sample_host) (cfg:=sample_settings)
              connected_world (CallSend (VStr "ping") VUndefined "abc" false)
              connected_world _ reachable_connected_world eq_refl) as (Hsend & _).
  apply (Hsend 0 "{...}"). by repeat constructor.
Defined.

Lemma sockets_target_fullUrl_witness :
  steps (hst:=sample_host) (cfg:=sample_settings) (initial (cfg:=sample_settings) VUndefined true) [CallConnect]
    = Some (pending_world, [WsNew 0 sample_url]) ∧
  sock_url (fresh_socket sample_url) = fullUrl (cfg:=sample_settings).
Proof.
  split; [reflexivity|].
  exact (proj1 (sockets_target_fullUrl (hst:=sample_host) (cfg:=sample_settings)
                  VUndefined true [CallConnect] pending_world [WsNew 0 sample_url] 0
                  (fresh_socket sample_url) eq_refl eq_refl)).
Defined.
